(** * Rate-and-state friction: a shallow embedding of [rsf.py]

    The Python module integrates a spring-slider system with
    rate-and-state friction.  This development models the module's
    classes ([StateRelation] and its three subclasses,
    [ExternalSystem], [RateState]) and proves properties of the
    integration step, of the loadpoint-velocity lookup and of the
    post-processing done by [solve].

    Modelling conventions.
    - A float is a [float64]: a real number, or one of the special
      values [inf], [-inf] and [nan], which follow the rules of IEEE 754.
      The result of an operation on finite operands is the exact real
      number: rounding is not modelled, and with it underflow (a result
      too small for a float stays the exact number, where the float is
      zero); zero has no sign (it is [+0]); and the range of float64 is
      modelled where leaving it raises an exception ([math.exp] and
      [**] on Python floats raise [OverflowError]), not where the
      overflow is silent.
    - A Python float and a numpy float64 scalar are different values:
      an operation with a numpy operand follows numpy (a division by
      zero returns [inf] or [nan]), an operation on Python floats
      follows Python (it raises [ZeroDivisionError]).
    - The parameters of a system and of its laws are Python floats or
      [None]; the time grid and the loadpoint velocities are numpy
      arrays of finite numbers.
    - An attribute that may hold [None] is a [value]; an attribute that
      may be missing from the object is an [option].
    - A Python exception is [Raise e]; mutation is explicit state
      passing, and a statement that raises leaves the mutations done
      before it in place.
    - The objects listed in [state_relations] are taken to be pairwise
      distinct objects, so the list of references is a list of records.
    - [scipy.integrate.odeint] is an external collaborator.  It is
      modelled as an [integrator]: a finite interaction that asks for
      the right-hand side at points of its choice and finally returns
      the solution matrix. *)

From Stdlib Require Import Reals Lra Lia.
From stdpp Require Import base option list strings gmap.

Open Scope R_scope.

#[global] Instance Rle_decision (x y : R) : Decision (x <= y) := Rle_dec x y.
#[global] Instance Rlt_decision (x y : R) : Decision (x < y) := Rlt_dec x y.
#[global] Instance Req_decision : EqDecision R := Req_dec_T.

(** ** Exceptions and the error monad *)

(** The exceptions of Python that the module can raise.  The last one is
    the error that the specification names for a call on an unset
    state: the module defines no exception class, and no definition
    below raises it. *)
Inductive exn :=
| NameError | TypeError | ValueError | ZeroDivisionError | OverflowError
| IndexError | AttributeError | RuntimeError
| UninitializedStateError.

Inductive result (A : Type) :=
| Ok (x : A)
| Raise (e : exn).
Arguments Ok {A} x.
Arguments Raise {A} e.

#[global] Instance result_ret : MRet result := λ A x, Ok x.
#[global] Instance result_bind : MBind result := λ A B f m,
  match m with
  | Ok x => f x
  | Raise e => Raise e
  end.

#[global] Instance result_fmap : FMap result := λ A B f m,
  match m with
  | Ok x => Ok (f x)
  | Raise e => Raise e
  end.

Definition is_error {A} (m : result A) : Prop :=
  match m with Ok _ => False | Raise _ => True end.

(** State-and-error monad: a raising computation still returns the
    state as mutated so far. *)
Definition M (S A : Type) : Type := S → result A * S.

#[global] Instance M_ret {S} : MRet (M S) := λ A x s, (Ok x, s).
#[global] Instance M_bind {S} : MBind (M S) := λ A B f m s,
  match m s with
  | (Ok x, s') => f x s'
  | (Raise e, s') => (Raise e, s')
  end.

Definition throw {S A} (e : exn) : M S A := λ s, (Raise e, s).
Definition lift {S A} (m : result A) : M S A := λ s, (m, s).
Definition get {S} : M S S := λ s, (Ok s, s).
Definition modify {S} (f : S → S) : M S unit := λ s, (Ok tt, f s).

(** ** Floats *)

Inductive float64 :=
| Fin (x : R)
| PosInf
| NegInf
| NaN.
Coercion Fin : R >-> float64.

(** The largest finite float64, [(2 - 2^-52) * 2^1023]. *)
Definition float_max : R := (2 - / 2 ^ 52) * 2 ^ 1023.

(** The infinity with the sign of [p], for [p] not zero. *)
Definition inf_like (p : R) : float64 :=
  if decide (0 < p) then PosInf else NegInf.

Definition fopp (x : float64) : float64 :=
  match x with
  | Fin p => Fin (- p)
  | PosInf => NegInf
  | NegInf => PosInf
  | NaN => NaN
  end.

Definition fadd (x y : float64) : float64 :=
  match x with
  | Fin p => match y with Fin q => Fin (p + q) | _ => y end
  | PosInf => match y with NegInf | NaN => NaN | _ => PosInf end
  | NegInf => match y with PosInf | NaN => NaN | _ => NegInf end
  | NaN => NaN
  end.

Definition fsub (x y : float64) : float64 :=
  match x with
  | Fin p => match y with Fin q => Fin (p - q) | _ => fopp y end
  | PosInf => match y with PosInf | NaN => NaN | _ => PosInf end
  | NegInf => match y with NegInf | NaN => NaN | _ => NegInf end
  | NaN => NaN
  end.

(** [0 * inf] is [nan]. *)
Definition fmul (x y : float64) : float64 :=
  match x with
  | Fin p =>
      match y with
      | Fin q => Fin (p * q)
      | PosInf => if decide (p = 0) then NaN else inf_like p
      | NegInf => if decide (p = 0) then NaN else inf_like (- p)
      | NaN => NaN
      end
  | PosInf =>
      match y with
      | Fin q => if decide (q = 0) then NaN else inf_like q
      | PosInf => PosInf
      | NegInf => NegInf
      | NaN => NaN
      end
  | NegInf =>
      match y with
      | Fin q => if decide (q = 0) then NaN else inf_like (- q)
      | PosInf => NegInf
      | NegInf => PosInf
      | NaN => NaN
      end
  | NaN => NaN
  end.

(** The division of IEEE 754, as numpy performs it: [0 / 0] and
    [inf / inf] are [nan], any other [x / 0] is an infinity. *)
Definition fdiv (x y : float64) : float64 :=
  match x with
  | Fin p =>
      match y with
      | Fin q =>
          if decide (q = 0)
          then (if decide (p = 0) then NaN else inf_like p)
          else Fin (p / q)
      | PosInf | NegInf => Fin 0
      | NaN => NaN
      end
  | PosInf =>
      match y with
      | Fin q => if decide (0 <= q) then PosInf else NegInf
      | _ => NaN
      end
  | NegInf =>
      match y with
      | Fin q => if decide (0 <= q) then NegInf else PosInf
      | _ => NaN
      end
  | NaN => NaN
  end.

Arguments fadd : simpl nomatch.
Arguments fsub : simpl nomatch.
Arguments fmul : simpl nomatch.
Arguments fdiv : simpl nomatch.

(** [x <= t] for a finite [x]; a comparison with [nan] is false. *)
Definition fle (x : R) (t : float64) : bool :=
  match t with
  | Fin q => bool_decide (x <= q)
  | PosInf => true
  | NegInf | NaN => false
  end.

(** ** Python values and float arithmetic *)

Inductive value :=
| PyNone
| PyFloat (x : float64)
| NpFloat (x : float64).

(** The conversion to a C double that [math.log], [math.exp] and
    [odeint] apply to their arguments. *)
Definition as_float (x : value) : result float64 :=
  match x with
  | PyFloat r | NpFloat r => Ok r
  | PyNone => Raise TypeError
  end.

(** A binary operator: the result is a numpy scalar as soon as one
    operand is. *)
Definition arith (f : float64 → float64 → float64) (x y : value)
  : result value :=
  match x, y with
  | PyFloat p, PyFloat q => Ok (PyFloat (f p q))
  | PyFloat p, NpFloat q | NpFloat p, PyFloat q | NpFloat p, NpFloat q =>
      Ok (NpFloat (f p q))
  | _, _ => Raise TypeError
  end.

Definition py_add := arith fadd.
Definition py_sub := arith fsub.
Definition py_mul := arith fmul.

(** [x / y]: on Python floats a zero divisor raises
    [ZeroDivisionError]; with a numpy operand the division is numpy's. *)
Definition py_div (x y : value) : result value :=
  match x, y with
  | PyFloat p, PyFloat (Fin q) =>
      if decide (q = 0) then Raise ZeroDivisionError
      else Ok (PyFloat (fdiv p (Fin q)))
  | _, _ => arith fdiv x y
  end.

(** [x ** 2]: on a Python float a square beyond the largest float
    raises [OverflowError]. *)
Definition py_sqr (x : value) : result value :=
  match x with
  | PyFloat (Fin p) =>
      if decide (p ^ 2 <= float_max) then Ok (PyFloat (Fin (p ^ 2)))
      else Raise OverflowError
  | PyFloat p => Ok (PyFloat (fmul p p))
  | NpFloat (Fin p) => Ok (NpFloat (Fin (p ^ 2)))
  | NpFloat p => Ok (NpFloat (fmul p p))
  | PyNone => Raise TypeError
  end.

(** [math.log]: a non-positive argument is a math domain error; the
    result is a Python float. *)
Definition math_log (x : value) : result value :=
  p ← as_float x;
  match p with
  | Fin r => if decide (0 < r) then Ok (PyFloat (Fin (ln r)))
             else Raise ValueError
  | PosInf => Ok (PyFloat PosInf)
  | NegInf => Raise ValueError
  | NaN => Ok (PyFloat NaN)
  end.

(** [math.exp]: a result beyond the largest float is a math range
    error; the result is a Python float. *)
Definition math_exp (x : value) : result value :=
  p ← as_float x;
  match p with
  | Fin r => if decide (exp r <= float_max) then Ok (PyFloat (Fin (exp r)))
             else Raise OverflowError
  | PosInf => Ok (PyFloat PosInf)
  | NegInf => Ok (PyFloat (Fin 0))
  | NaN => Ok (PyFloat NaN)
  end.

Arguments py_div : simpl nomatch.
Arguments py_sqr : simpl nomatch.
Arguments math_log : simpl nomatch.
Arguments math_exp : simpl nomatch.

(** ** State relations *)

(** The three subclasses of [StateRelation]. *)
Inductive relation := DieterichState | RuinaState | PrzState.

Record StateRelation := {
  cls : relation;
  b : value;
  Dc : value;
  state : value
}.

(** [StateRelation.__init__]: every attribute starts as [None]. *)
Definition StateRelation_init (c : relation) : StateRelation :=
  {| cls := c; b := PyNone; Dc := PyNone; state := PyNone |}.

Definition set_state (x : value) (self : StateRelation) : StateRelation :=
  {| cls := cls self; b := b self; Dc := Dc self; state := x |}.

(** ** The external system *)

Record ExternalSystem := {
  mu0 : value;
  a : value;
  k : value;
  v : value;
  vref : value;
  state_relations : list StateRelation;
  (* attributes that [ExternalSystem.__init__] does not create *)
  mu : option value;
  model_time : option (list R);
  loadpoint_velocity : option (list R)
}.

Definition ExternalSystem_init : ExternalSystem :=
  {| mu0 := PyNone; a := PyNone; k := PyNone; v := PyNone; vref := PyNone;
     state_relations := []; mu := None; model_time := None;
     loadpoint_velocity := None |}.

Definition set_mu (x : value) (s : ExternalSystem) : ExternalSystem :=
  {| mu0 := mu0 s; a := a s; k := k s; v := v s; vref := vref s;
     state_relations := state_relations s; mu := Some x;
     model_time := model_time s; loadpoint_velocity := loadpoint_velocity s |}.

Definition set_v (x : value) (s : ExternalSystem) : ExternalSystem :=
  {| mu0 := mu0 s; a := a s; k := k s; v := x; vref := vref s;
     state_relations := state_relations s; mu := mu s;
     model_time := model_time s; loadpoint_velocity := loadpoint_velocity s |}.

Definition set_state_relations (l : list StateRelation) (s : ExternalSystem)
  : ExternalSystem :=
  {| mu0 := mu0 s; a := a s; k := k s; v := v s; vref := vref s;
     state_relations := l; mu := mu s;
     model_time := model_time s; loadpoint_velocity := loadpoint_velocity s |}.

(** Reading an attribute that was never assigned. *)
Definition getattr {A} (x : option A) : result A :=
  match x with
  | Some y => Ok y
  | None => Raise AttributeError
  end.

(** [StateRelation.velocity_component]:
    [self.b * log(system.vref * self.state / self.Dc)] *)
Definition velocity_component (self : StateRelation) (system : ExternalSystem)
  : result value :=
  x ← py_mul (vref system) (state self);
  y ← py_div x (Dc self);
  l ← math_log y;
  py_mul (b self) l.

(** [_set_steady_state]: the new value of [self.state]. *)
Definition steady_state (self : StateRelation) (system : ExternalSystem)
  : result value :=
  match cls self with
  | DieterichState | RuinaState => py_div (Dc self) (vref system)
  | PrzState =>
      d ← py_mul (PyFloat 2) (Dc self);
      py_div d (vref system)
  end.

Definition _set_steady_state (system : ExternalSystem) : M StateRelation unit :=
  λ self, match steady_state self system with
          | Ok x => (Ok tt, set_state x self)
          | Raise e => (Raise e, self)
          end.

(** The bodies of [evolve_state] call [_steady_state(self, system)] when
    [self.state is None].  The module binds no such name (no [def], no
    import, no assignment), so evaluating the call raises [NameError]
    and the assignment to [self.state] is never carried out. *)
Definition _steady_state (self : StateRelation) (system : ExternalSystem)
  : result value := Raise NameError.

Definition evolve_state (self : StateRelation) (system : ExternalSystem)
  : result value :=
  st ← (match state self with
        | PyNone => _steady_state self system
        | s => Ok s
        end);
  match cls self with
  | DieterichState =>
      (* 1. - system.v * self.state / self.Dc *)
      x ← py_mul (v system) st;
      y ← py_div x (Dc self);
      py_sub (PyFloat 1) y
  | RuinaState =>
      (* -1 * (system.v * self.state / self.Dc)
            * log(system.v * self.state / self.Dc) *)
      x ← py_mul (v system) st;
      y ← py_div x (Dc self);
      z ← py_mul (PyFloat (-1)) y;
      x' ← py_mul (v system) st;
      y' ← py_div x' (Dc self);
      l ← math_log y';
      py_mul z l
  | PrzState =>
      (* 1. - (system.v * self.state / (2 * self.Dc))**2 *)
      x ← py_mul (v system) st;
      d ← py_mul (PyFloat 2) (Dc self);
      y ← py_div x d;
      p ← py_sqr y;
      py_sub (PyFloat 1) p
  end.

(** [ExternalSystem.velocity_evolution]: the loop accumulating
    [v_contribution], which starts as the integer [0]. *)
Fixpoint v_contribution_loop (acc : value) (laws : list StateRelation)
  (self : ExternalSystem) : result value :=
  match laws with
  | [] => Ok acc
  | law :: rest =>
      c ← velocity_component law self;
      acc' ← py_add acc c;
      v_contribution_loop acc' rest self
  end.

Definition velocity_evolution : M ExternalSystem unit :=
  λ self,
    match (v_contribution ←
             v_contribution_loop (PyFloat 0) (state_relations self) self;
           m ← getattr (mu self);
           d ← py_sub m (mu0 self);
           n ← py_sub d v_contribution;
           q ← py_div n (a self);
           e ← math_exp q;
           py_mul (vref self) e) with
    | Ok x => (Ok tt, set_v x self)
    | Raise e => (Raise e, self)
    end.

(** [ExternalSystem.friction_evolution]:
    [self.k * (loadpoint_vel - self.v)]; [loadpoint_vel] is an element
    of a numpy array. *)
Definition friction_evolution (self : ExternalSystem) (loadpoint_vel : R)
  : result value :=
  d ← py_sub (NpFloat loadpoint_vel) (v self);
  py_mul (k self) d.

(** ** numpy vectors *)

(** [w[i]] for a non-negative index. *)
Definition item {A} (w : list A) (i : nat) : result A :=
  match w !! i with
  | Some x => Ok x
  | None => Raise IndexError
  end.

(** [arr[-1]] *)
Definition last_item (arr : list R) : result R :=
  match last arr with
  | Some x => Ok x
  | None => Raise IndexError
  end.

(** [arr <= t]: the boolean mask. *)
Definition mask_le (arr : list R) (t : float64) : list bool :=
  (λ x, fle x t) <$> arr.

Fixpoint compress (arr : list R) (mask : list bool) : list R :=
  match arr, mask with
  | x :: arr', m :: mask' =>
      if m then x :: compress arr' mask' else compress arr' mask'
  | _, _ => []
  end.

(** [arr[mask]]: boolean-array indexing needs equal lengths. *)
Definition bool_index (arr : list R) (mask : list bool) : result (list R) :=
  if decide (length arr = length mask) then Ok (compress arr mask)
  else Raise IndexError.

(** ** numpy array arithmetic *)

(** [wsol[:, i]] *)
Definition column (i : nat) (wsol : list (list float64))
  : result (list float64) :=
  mapM (λ row, item row i) wsol.

(** [wsol[:, i:]] *)
Definition columns_from (i : nat) (wsol : list (list float64))
  : list (list float64) :=
  drop i <$> wsol.

(** Elementwise operation on two vectors with numpy's broadcasting of
    a length-one operand. *)
Definition broadcast {A} (f : A → A → A) (xs ys : list A) : result (list A) :=
  if decide (length xs = length ys) then Ok (zip_with f xs ys)
  else match xs, ys with
       | [x], _ => Ok (f x <$> ys)
       | _, [y] => Ok ((λ x, f x y) <$> xs)
       | _, _ => Raise ValueError
       end.

(** A Python number or a numpy vector. *)
Inductive ndarray :=
| Scalar (x : float64)
| Array (xs : list float64).

Definition nd_op (f : float64 → float64 → float64) (x y : ndarray)
  : result ndarray :=
  match x, y with
  | Scalar p, Scalar q => Ok (Scalar (f p q))
  | Scalar p, Array ys => Ok (Array (f p <$> ys))
  | Array xs, Scalar q => Ok (Array ((λ x, f x q) <$> xs))
  | Array xs, Array ys => Array <$> broadcast f xs ys
  end.

Definition nd_of_value (x : value) : result ndarray := Scalar <$> as_float x.

(** [x / y]: a vector divided by zero is a vector of [inf] and [nan]
    (numpy warns and goes on); two Python numbers divide as Python
    floats do. *)
Definition np_div (x y : ndarray) : result ndarray :=
  match x, y with
  | Scalar p, Scalar (Fin q) =>
      if decide (q = 0) then Raise ZeroDivisionError
      else Ok (Scalar (fdiv p (Fin q)))
  | _, _ => nd_op fdiv x y
  end.

(** [np.log] of one number: [-inf] at zero and [nan] below (numpy warns
    and goes on). *)
Definition flog (x : float64) : float64 :=
  match x with
  | Fin p => if decide (0 < p) then Fin (ln p)
             else if decide (p = 0) then NegInf else NaN
  | PosInf => PosInf
  | NegInf | NaN => NaN
  end.

(** [np.exp] of one number. *)
Definition fexp (x : float64) : float64 :=
  match x with
  | Fin p => Fin (exp p)
  | PosInf => PosInf
  | NegInf => Fin 0
  | NaN => NaN
  end.

Arguments flog : simpl nomatch.

Definition np_log (x : ndarray) : ndarray :=
  match x with
  | Scalar p => Scalar (flog p)
  | Array xs => Array (flog <$> xs)
  end.

Definition np_exp (x : ndarray) : ndarray :=
  match x with
  | Scalar p => Scalar (fexp p)
  | Array xs => Array (fexp <$> xs)
  end.

(** [np.ediff1d] *)
Fixpoint ediff1d (xs : list R) : list R :=
  match xs with
  | x :: (y :: _) as rest => (y - x) :: ediff1d rest
  | _ => []
  end.

(** [np.cumsum], with the running total in [acc]. *)
Fixpoint cumsum_from (acc : R) (xs : list R) : list R :=
  match xs with
  | [] => []
  | x :: rest => (acc + x) :: cumsum_from (acc + x) rest
  end.
Definition cumsum := cumsum_from 0.

(** [arr[:-1]] *)
Definition all_but_last (xs : list R) : list R := take (length xs - 1) xs.

(** ** The simulator *)

(** The object bound to [self.results]: the class made by [namedtuple],
    used as a bag of attributes.  A field is [None] until [solve]
    assigns it. *)
Record results := {
  time : option (list R);
  displacement : option (list R);
  slider_velocity : option ndarray;
  friction : option (list float64);
  states : option (list (list float64))
}.

Definition results_class : results :=
  {| time := None; displacement := None; slider_velocity := None;
     friction := None; states := None |}.

Definition set_time (x : list R) (r : results) : results :=
  {| time := Some x; displacement := displacement r;
     slider_velocity := slider_velocity r; friction := friction r;
     states := states r |}.
Definition set_displacement (x : list R) (r : results) : results :=
  {| time := time r; displacement := Some x;
     slider_velocity := slider_velocity r; friction := friction r;
     states := states r |}.
Definition set_slider_velocity (x : ndarray) (r : results) : results :=
  {| time := time r; displacement := displacement r;
     slider_velocity := Some x; friction := friction r;
     states := states r |}.
Definition set_friction (x : list float64) (r : results) : results :=
  {| time := time r; displacement := displacement r;
     slider_velocity := slider_velocity r; friction := Some x;
     states := states r |}.
Definition set_states (x : list (list float64)) (r : results) : results :=
  {| time := time r; displacement := displacement r;
     slider_velocity := slider_velocity r; friction := friction r;
     states := Some x |}.

(** Objects are shared by reference: the heap maps the identity of a
    results object to its attributes. *)
Definition loc := positive.
Abbreviation heap := (gmap loc results).

Record RateState := {
  self_model_time : option (list R);   (* [self.model_time], [None] at first *)
  self_loadpoint_velocity : list R;    (* [self.loadpoint_velocity] *)
  self_results : loc                   (* [self.results] *)
}.

(** [RateState.__init__]: one results object is made per simulator. *)
Definition RateState_init (h : heap) : RateState * heap :=
  let l := fresh (dom h) in
  ({| self_model_time := None; self_loadpoint_velocity := [];
      self_results := l |},
   <[l := results_class]> h).

(** ** The integration step *)

(** [system.loadpoint_velocity[system.model_time <= t][-1]] *)
Definition loadpoint_lookup (system : ExternalSystem) (t : float64)
  : result R :=
  lv ← getattr (loadpoint_velocity system);
  mt ← getattr (model_time system);
  sel ← bool_index lv (mask_le mt t);
  last_item sel.

(** [for i, state_variable in enumerate(...): state_variable.state = w[i+1]],
    started at index [i]; an element of [w] is a numpy scalar. *)
Fixpoint assign_states (w : list float64) (i : nat)
  (laws : list StateRelation) : result unit * list StateRelation :=
  match laws with
  | [] => (Ok tt, [])
  | law :: rest =>
      match item w (i + 1) with
      | Raise e => (Raise e, law :: rest)
      | Ok x =>
          let '(r, rest') := assign_states w (S i) rest in
          (r, set_state (NpFloat x) law :: rest')
      end
  end.

(** The step returns the list [step_results] to [odeint], which reads
    it as an array of floats: the last line is that conversion. *)
Definition _integrationStep (self : RateState) (w : list float64)
  (t : float64) : M ExternalSystem (list float64) :=
  m ← lift (item w 0);
  modify (set_mu (NpFloat m));;
  (λ system,
     let '(r, laws) := assign_states w 0 (state_relations system) in
     (r, set_state_relations laws system));;
  velocity_evolution;;
  system ← get;
  loadpoint_vel ← lift (loadpoint_lookup system t);
  dmu_dt ← lift (friction_evolution system loadpoint_vel);
  rates ← lift (mapM (λ law, evolve_state law system) (state_relations system));
  lift (mapM as_float (dmu_dt :: rates)).

(** ** The external integrator *)

(** What [odeint] does with its callback: it returns a solution matrix,
    fails, or evaluates the right-hand side at a point and goes on with
    the answer. *)
Inductive integrator :=
| Solution (wsol : list (list float64))
| Failure (e : exn)
| Rhs (w : list float64) (t : float64) (next : list float64 → integrator).

Fixpoint run_integrator {S}
  (func : list float64 → float64 → M S (list float64))
  (p : integrator) : M S (list (list float64)) :=
  match p with
  | Solution wsol => mret wsol
  | Failure e => throw e
  | Rhs w t next => dw ← func w t; run_integrator func (next dw)
  end.

(** ** Solving *)

(** The state [solve] works on: the system passed in and the heap. *)
Abbreviation store := (ExternalSystem * heap)%type.

Definition on_system {A} (m : M ExternalSystem A) : M store A :=
  λ s, let '(r, system') := m s.1 in (r, (system', s.2)).

Definition getobj (l : loc) : M store results :=
  λ s, (Ok (default results_class (s.2 !! l)), s).

Definition setattr (l : loc) (f : results → results) : M store unit :=
  λ s, (Ok tt, (s.1, <[l := f (default results_class (s.2 !! l))]> s.2)).

Definition readyCheck (self : RateState) : bool := true.

(** The loop of [solve] that builds the initial conditions after
    [w0 = [system.mu0]]: the states appended to [w0], and the laws as
    mutated. *)
Fixpoint initial_states (system : ExternalSystem) (laws : list StateRelation)
  : result (list value) * list StateRelation :=
  match laws with
  | [] => (Ok [], [])
  | law :: rest =>
      match _set_steady_state system law with
      | (Raise e, law') => (Raise e, law' :: rest)
      | (Ok _, law') =>
          let '(r, rest') := initial_states system rest in
          (cons (state law') <$> r, law' :: rest')
      end
  end.

Definition initial_conditions : M ExternalSystem (list value) :=
  λ system,
    let '(r, laws) := initial_states system (state_relations system) in
    (cons (mu0 system) <$> r, set_state_relations laws system).

(** The loop of [solve] that accumulates [velocity_contribution] over
    the columns of [self.results.states], started at column [i]. *)
Fixpoint velocity_contribution_loop (acc : ndarray) (i : nat)
  (laws : list StateRelation) (system : ExternalSystem)
  (sts : list (list float64)) : result ndarray :=
  match laws with
  | [] => Ok acc
  | law :: rest =>
      col ← column i sts;
      vr ← nd_of_value (vref system);
      x ← nd_op fmul vr (Array col);
      d ← nd_of_value (Dc law);
      y ← np_div x d;
      bb ← nd_of_value (b law);
      c ← nd_op fmul bb (np_log y);
      acc' ← nd_op fadd acc c;
      velocity_contribution_loop acc' (S i) rest system sts
  end.

(** [system.vref * np.exp((friction - system.mu0 - velocity_contribution)
    / system.a)] *)
Definition slider_velocity_of (system : ExternalSystem) (fr : list float64)
  (velocity_contribution : ndarray) : result ndarray :=
  m0 ← nd_of_value (mu0 system);
  d ← nd_op fsub (Array fr) m0;
  n ← nd_op fsub d velocity_contribution;
  aa ← nd_of_value (a system);
  q ← np_div n aa;
  vr ← nd_of_value (vref system);
  nd_op fmul vr (np_exp q).

(** [np.insert(np.cumsum(system.loadpoint_velocity[:-1] * dt), 0, 0)]
    with [dt = np.ediff1d(system.model_time)] *)
Definition displacement_of (system : ExternalSystem) : result (list R) :=
  mt ← getattr (model_time system);
  lv ← getattr (loadpoint_velocity system);
  prod ← broadcast Rmult (all_but_last lv) (ediff1d mt);
  mret (0 :: cumsum prod).

Definition default_kwargs : gmap string R :=
  {[ "rtol" := 1e-12; "atol" := 1e-12 ]}.

(** The statements of [solve] that follow the call of [odeint]; [mt] is
    [system.model_time] as read for that call. *)
Definition postprocess (self : RateState) (wsol : list (list float64))
  (mt : list R) : M store loc :=
  fr ← lift (column 0 wsol);
  setattr (self_results self) (set_friction fr);;
  setattr (self_results self) (set_states (columns_from 1 wsol));;
  setattr (self_results self) (set_time mt);;
  system ← on_system get;
  res ← getobj (self_results self);
  sts ← lift (getattr (states res));
  velocity_contribution ←
    lift (velocity_contribution_loop (Scalar 0) 0 (state_relations system)
            system sts);
  fr' ← lift (getattr (friction res));
  sv ← lift (slider_velocity_of system fr' velocity_contribution);
  setattr (self_results self) (set_slider_velocity sv);;
  disp ← lift (displacement_of system);
  setattr (self_results self) (set_displacement disp);;
  mret (self_results self).

Section Solve.

(** [integrate.odeint], given the initial vector, the sample times and
    the keyword arguments.  A keyword that [odeint] itself refuses (a
    name it does not know, or one of the parameters that [solve] passes
    by position) is [odeint]'s to reject, with [Failure TypeError]. *)
Variable odeint : list float64 → list R → gmap string R → integrator.

(** The call is [odeint(self._integrationStep, w0, system.model_time,
    args=(system,), **odeint_kwargs)]: its arguments are evaluated
    first, then a keyword [args] among [odeint_kwargs] is a second
    value for that keyword and the call raises [TypeError]; [odeint]
    itself then reads [w0] as an array of floats. *)
Definition solve (self : RateState) (kwargs : gmap string R)
  : M store loc :=
  let odeint_kwargs := kwargs ∪ default_kwargs in
  (if negb (readyCheck self) then throw RuntimeError else mret tt);;
  w0 ← on_system initial_conditions;
  mt ← on_system (system ← get; lift (getattr (model_time system)));
  (if decide (is_Some (odeint_kwargs !! "args")) then throw TypeError
   else mret tt);;
  y0 ← lift (mapM as_float w0);
  wsol ← on_system
           (run_integrator (_integrationStep self)
              (odeint y0 mt odeint_kwargs));
  postprocess self wsol mt.

End Solve.

(** A simple integrator for concrete runs: the forward Euler method on
    the sample times. *)
Fixpoint euler_from (w : list float64) (t : R) (ts : list R)
  (done : list (list float64)) : integrator :=
  match ts with
  | [] => Solution (done ++ [w])
  | t' :: rest =>
      Rhs w t (λ dw,
        euler_from (zip_with (λ x d, fadd x (fmul (Fin (t' - t)) d)) w dw)
                   t' rest (done ++ [w]))
  end.

Definition euler (y0 : list float64) (ts : list R) (kwargs : gmap string R)
  : integrator :=
  match ts with
  | [] => Failure ValueError
  | t :: rest => euler_from y0 t rest []
  end.

(** ** Sample inputs *)

(** A state relation with the parameters of the worked example and its
    state at the steady value for [vref = 1]. *)
Definition sample_law (c : relation) : StateRelation :=
  {| cls := c; b := PyFloat 0.01; Dc := PyFloat 10; state := PyFloat 10 |}.

Definition sample_system_at (m0 : R) (laws : list StateRelation)
  (mt lv : list R) : ExternalSystem :=
  {| mu0 := PyFloat m0; a := PyFloat 0.005; k := PyFloat 1e-3;
     v := PyFloat 1; vref := PyFloat 1; state_relations := laws;
     mu := None; model_time := Some mt; loadpoint_velocity := Some lv |}.

Definition sample_system := sample_system_at 0.6.

(** The velocity step of the lookup scenario: the grid [0, 1, 2, 3] with
    loadpoint velocities [5, 5, 9, 9]. *)
Definition hold_system : ExternalSystem :=
  sample_system [sample_law DieterichState] [0; 1; 2; 3] [5; 5; 9; 9].

(** The data-model invariant on the time grid: strictly increasing. *)
Definition increasing (xs : list R) : Prop :=
  ∀ i j x y, (i < j)%nat → xs !! i = Some x → xs !! j = Some y → x < y.

(** ** The formulas of the model, on real numbers *)

(** The number held by a parameter that is set to a finite float. *)
Definition float_of (x : value) : R :=
  match x with
  | PyFloat (Fin r) | NpFloat (Fin r) => r
  | _ => 0
  end.

(** [b * ln (vref * theta / Dc)] for one law and its state [theta]. *)
Definition contribution (vr : R) (law : StateRelation) (theta : R) : R :=
  float_of (b law) * ln (vr * theta / float_of (Dc law)).

(** The sum of the contributions of the laws, each with its state. *)
Definition total_contribution (vr : R) (laws : list StateRelation)
  (thetas : list R) : R :=
  foldr Rplus 0 (zip_with (contribution vr) laws thetas).

(** [vref * exp ((mu - mu0 - sum) / a)] *)
Definition constitutive_velocity (vr m m0 aa : R)
  (laws : list StateRelation) (thetas : list R) : R :=
  vr * exp ((m - m0 - total_contribution vr laws thetas) / aa).

(** The rate of change of the state [theta] of a law at velocity [vel]. *)
Definition rate (vel : R) (law : StateRelation) (theta : R) : R :=
  let d := float_of (Dc law) in
  match cls law with
  | DieterichState => 1 - vel * theta / d
  | RuinaState => - (vel * theta / d) * ln (vel * theta / d)
  | PrzState => 1 - (vel * theta / (2 * d)) ^ 2
  end.

(** A law whose parameters are set, with a positive [Dc]. *)
Definition configured (law : StateRelation) : Prop :=
  ∃ bb d : R, b law = PyFloat bb ∧ Dc law = PyFloat d ∧ 0 < d.

(** The laws with the states of a solver vector written into them, as
    the step does: the elements of the vector are numpy scalars. *)
Definition with_states (laws : list StateRelation) (thetas : list R)
  : list StateRelation :=
  zip_with (λ law (theta : R), set_state (NpFloat theta) law) laws thetas.

(** The laws with their states set to Python floats, as
    [_set_steady_state] does. *)
Definition with_initial_states (laws : list StateRelation) (thetas : list R)
  : list StateRelation :=
  zip_with (λ law (theta : R), set_state (PyFloat theta) law) laws thetas.

(** A vector or a matrix of finite floats. *)
Definition finite (xs : list R) : list float64 := Fin <$> xs.
Definition finite_matrix (rows : list (list R)) : list (list float64) :=
  finite <$> rows.

(** The worked example: one Dieterich law, a two-point grid at constant
    loadpoint velocity, with reference friction [m0]. *)
Definition steady_system_at (m0 : R) : ExternalSystem :=
  sample_system_at m0 [sample_law DieterichState] [0; 1] [1; 1].

Definition steady_system : ExternalSystem := steady_system_at 0.6.

(** A simulator as [RateState()] makes it on an empty heap. *)
Definition sample_simulator : RateState := (RateState_init ∅).1.
Definition sample_heap : heap := (RateState_init ∅).2.

(** The steady-state value of a law at reference velocity [vr]. *)
Definition steady_value (vr : R) (law : StateRelation) : R :=
  let d := float_of (Dc law) in
  match cls law with
  | PrzState => 2 * d / vr
  | DieterichState | RuinaState => d / vr
  end.

(** Two laws, or two systems, that differ at most in the scratch
    attributes [state], [mu] and [v]. *)
Definition same_law (l l' : StateRelation) : Prop :=
  cls l = cls l' ∧ b l = b l' ∧ Dc l = Dc l'.

Definition same_parameters (s s' : ExternalSystem) : Prop :=
  mu0 s = mu0 s' ∧ a s = a s' ∧ k s = k s' ∧ vref s = vref s' ∧
  model_time s = model_time s' ∧
  loadpoint_velocity s = loadpoint_velocity s' ∧
  Forall2 same_law (state_relations s) (state_relations s').

(** The displacement: [0] followed by the running sum of
    [loadpoint_velocity[j] * (time[j+1] - time[j])]. *)
Definition displacement_formula (mt lv : list R) : list R :=
  0 :: cumsum (zip_with Rmult (all_but_last lv) (ediff1d mt)).

(** The results object as a function of a finite solution matrix. *)
Definition solved (vr m0 aa : R) (laws : list StateRelation)
  (mt lv : list R) (wsol : list (list R)) : results :=
  {| time := Some mt;
     displacement := Some (displacement_formula mt lv);
     slider_velocity :=
       Some (Array (finite
                      ((λ row, constitutive_velocity vr
                                 (default 0 (row !! 0%nat))
                                 m0 aa laws (drop 1 row)) <$> wsol)));
     friction := Some (finite ((λ row, default 0 (row !! 0%nat)) <$> wsol));
     states := Some (finite_matrix (drop 1 <$> wsol)) |}.

(** A system with every parameter set but no state relation. *)
Definition lawless_system : ExternalSystem :=
  sample_system [] [0; 1] [1; 1].

(** A system as [ExternalSystem()] makes it, with its parameters and one
    law set, and no [model_time] or [loadpoint_velocity] attribute. *)
Definition gridless_system : ExternalSystem :=
  {| mu0 := PyFloat 0.6; a := PyFloat 0.005; k := PyFloat 1e-3;
     v := PyFloat 1; vref := PyFloat 1;
     state_relations := [sample_law DieterichState];
     mu := None; model_time := None; loadpoint_velocity := None |}.

(** A simulator whose own [model_time] and [loadpoint_velocity] are set. *)
Definition own_grid_simulator : RateState :=
  {| self_model_time := Some [0; 1]; self_loadpoint_velocity := [9; 9];
     self_results := self_results sample_simulator |}.

(** An integrator that agrees with [euler] on the grid [0, 1] and fails
    on every other grid. *)
Definition euler_on_unit_grid (y0 : list float64) (ts : list R)
  (kwargs : gmap string R) : integrator :=
  if decide (ts = [0; 1]) then euler y0 ts kwargs else Failure RuntimeError.

(** ** Reordering the state relations *)

(** A reordering is a list of positions: the i-th element of the
    reordered list is the element at position [p[i]]. *)
Definition permute {A} (p : list nat) (xs : list A) : list A :=
  omap (λ i, xs !! i) p.

(** A solver vector [[mu, theta_1, ...]] with its states reordered. *)
Definition permute_states {A} (p : list nat) (w : list A) : list A :=
  match w with
  | [] => []
  | m :: thetas => m :: permute p thetas
  end.

(** The system with its list of state relations reordered; every law
    keeps its own class, [b], [Dc] and [state]. *)
Definition permuted_system (p : list nat) (system : ExternalSystem)
  : ExternalSystem :=
  set_state_relations (permute p (state_relations system)) system.

(** Two systems with the same parameters, the laws of the second being
    those of the first reordered by [p], up to the scratch attributes. *)
Definition reordered (p : list nat) (s s' : ExternalSystem) : Prop :=
  mu0 s = mu0 s' ∧ a s = a s' ∧ k s = k s' ∧ vref s = vref s' ∧
  model_time s = model_time s' ∧
  loadpoint_velocity s = loadpoint_velocity s' ∧
  Forall2 same_law (permute p (state_relations s)) (state_relations s').

(** An integrator that treats the state coordinates alike: run on the
    reordered initial vector it asks for the right-hand side at the
    reordered points, which are finite, and, given the reordered
    answers, returns the reordered solution.  [n] is the number of
    states. *)
Inductive equivariant (p : list nat) (n : nat)
  : integrator → integrator → Prop :=
| equivariant_solution (wsol : list (list float64)) :
    equivariant p n (Solution wsol) (Solution (permute_states p <$> wsol))
| equivariant_failure (e : exn) :
    equivariant p n (Failure e) (Failure e)
| equivariant_rhs (w : list R) (t : float64)
    (next next' : list float64 → integrator) :
    length w = S n →
    (∀ dw : list R, length dw = S n →
       equivariant p n (next (finite dw))
         (next' (permute_states p (finite dw)))) →
    equivariant p n (Rhs (finite w) t next)
      (Rhs (permute_states p (finite w)) t next').

(** Two laws with different parameters, for the reordering example. *)
Definition second_law : StateRelation :=
  {| cls := RuinaState; b := PyFloat 0.001; Dc := PyFloat 5;
     state := PyNone |}.

Definition two_law_system : ExternalSystem :=
  sample_system [sample_law DieterichState; second_law] [0; 1] [1; 1].



(** The worked example with a zero reference velocity. *)
Definition zero_vref_system : ExternalSystem :=
  {| mu0 := PyFloat 0.6; a := PyFloat 0.005; k := PyFloat 1e-3;
     v := PyFloat 1; vref := PyFloat 0;
     state_relations := [sample_law DieterichState];
     mu := None; model_time := Some [0; 1];
     loadpoint_velocity := Some [1; 1] |}.

(** A system without state relation whose grid has a single sample time
    while three loadpoint velocities are given. *)
Definition single_point_system : ExternalSystem :=
  sample_system [] [0] [1; 1; 1].

(** [euler], refusing every relative tolerance other than [1e-12]. *)
Definition strict_euler (y0 : list float64) (ts : list R)
  (kwargs : gmap string R) : integrator :=
  if decide (kwargs !! "rtol" = Some 1e-12) then euler y0 ts kwargs
  else Failure ValueError.

(** A value that is a finite number, as a Python float or as a numpy
    scalar. *)
Definition is_float (x : value) (r : R) : Prop :=
  x = PyFloat r ∨ x = NpFloat r.

(** * Properties *)

(** ** Floats *)

Lemma float_max_ge_1 : 1 <= float_max.
Proof.
  unfold float_max.
  assert (1 <= 2 ^ 1023) as H1 by (apply pow_R1_Rle; lra).
  assert (1 <= 2 ^ 52) as H52 by (apply pow_R1_Rle; lra).
  pose proof (Rinv_le_contravar 1 (2 ^ 52) Rlt_0_1 H52) as H2.
  rewrite Rinv_1 in H2. nra.
Qed.

Lemma fdiv_fin (x y : R) : y ≠ 0 → fdiv (Fin x) (Fin y) = Fin (x / y).
Proof. intros Hy. unfold fdiv. by rewrite decide_False. Qed.

Lemma flog_pos (p : R) : 0 < p → flog (Fin p) = Fin (ln p).
Proof. intros Hp. unfold flog. by rewrite decide_True. Qed.

Lemma py_div_py (p : float64) (q : R) :
  q ≠ 0 → py_div (PyFloat p) (PyFloat q) = Ok (PyFloat (fdiv p q)).
Proof. intros Hq. unfold py_div. by rewrite decide_False. Qed.

Lemma py_div_zero (p : float64) :
  py_div (PyFloat p) (PyFloat 0) = Raise ZeroDivisionError.
Proof. unfold py_div. by rewrite decide_True. Qed.

Lemma py_div_none (x : value) : py_div x PyNone = Raise TypeError.
Proof. by destruct x. Qed.

Lemma math_log_pos (x : value) (r : R) :
  as_float x = Ok (Fin r) → 0 < r → math_log x = Ok (PyFloat (ln r)).
Proof.
  intros Hx Hr. unfold math_log. rewrite Hx. simpl. by rewrite decide_True.
Qed.

Lemma math_log_nonpos (x : value) (r : R) :
  as_float x = Ok (Fin r) → ¬ 0 < r → math_log x = Raise ValueError.
Proof.
  intros Hx Hr. unfold math_log. rewrite Hx. simpl. by rewrite decide_False.
Qed.

Lemma math_exp_fin (x : value) (r : R) :
  as_float x = Ok (Fin r) → exp r <= float_max →
  math_exp x = Ok (PyFloat (exp r)).
Proof.
  intros Hx Hr. unfold math_exp. rewrite Hx. simpl. by rewrite decide_True.
Qed.

Lemma math_exp_overflow (x : value) (r : R) :
  as_float x = Ok (Fin r) → float_max < exp r →
  math_exp x = Raise OverflowError.
Proof.
  intros Hx Hr. unfold math_exp. rewrite Hx. simpl.
  rewrite decide_False; [done | lra].
Qed.



Lemma is_float_as_float (x : value) (r : R) :
  is_float x r → as_float x = Ok (Fin r).
Proof. by intros [-> | ->]. Qed.

(** ** Boolean-mask selection *)

Lemma compress_all_false (arr : list R) (mask : list bool) :
  (∀ j, mask !! j ≠ Some true) → compress arr mask = [].
Proof.
  revert mask. induction arr as [|x arr IH]; intros [|m mask] H; try done.
  simpl. destruct m.
  - by specialize (H 0%nat).
  - apply IH. intros j. apply (H (S j)).
Qed.

Lemma last_compress (arr : list R) (mask : list bool) (i : nat) (x : R) :
  arr !! i = Some x → mask !! i = Some true →
  (∀ j, (i < j)%nat → mask !! j ≠ Some true) →
  last (compress arr mask) = Some x.
Proof.
  revert mask i.
  induction arr as [|y arr IH]; intros [|m mask] i Hx Hm Hlast; try done.
  destruct i as [|i]; simpl in *.
  - simplify_eq. rewrite (compress_all_false arr mask); first done.
    intros j. apply (Hlast (S j)). lia.
  - assert (last (compress arr mask) = Some x) as Hl.
    { apply (IH mask i); try done. intros j Hj. apply (Hlast (S j)). lia. }
    destruct m; last done. rewrite last_cons, Hl. done.
Qed.

Lemma last_true_exists (mask : list bool) (i : nat) :
  mask !! i = Some true →
  ∃ i', mask !! i' = Some true ∧ ∀ j, (i' < j)%nat → mask !! j ≠ Some true.
Proof.
  revert i. induction mask as [|m mask IH]; intros i Hi; first done.
  destruct (decide (true ∈ mask)) as [Hin|Hnone].
  - apply list_elem_of_lookup_1 in Hin as [j Hj].
    destruct (IH j Hj) as (i' & Hi' & Hlast).
    exists (S i'). split; first done.
    intros [|j'] Hlt; first lia. simpl. apply Hlast. lia.
  - destruct i as [|i].
    + exists 0%nat. split; first done.
      intros [|j'] Hlt; first lia. simpl. intros Hj'.
      apply Hnone. by eapply list_elem_of_lookup_2.
    + exfalso. apply Hnone. by eapply list_elem_of_lookup_2.
Qed.

Lemma mask_le_lookup (mt : list R) (t : R) (j : nat) :
  mask_le mt t !! j = Some true ↔ ∃ tj, mt !! j = Some tj ∧ tj <= t.
Proof.
  unfold mask_le. rewrite list_lookup_fmap. destruct (mt !! j) as [tj|]; simpl.
  - split.
    + intros [= H]. apply bool_decide_eq_true in H. eauto.
    + intros (tj' & [= <-] & H). f_equal. by apply bool_decide_eq_true.
  - split; first done. by intros (? & ? & ?).
Qed.

Lemma loadpoint_lookup_at (system : ExternalSystem) (mt lv : list R)
  (t : R) (i : nat) (ti x : R) :
  model_time system = Some mt → loadpoint_velocity system = Some lv →
  length mt = length lv →
  mt !! i = Some ti → lv !! i = Some x → ti <= t →
  (∀ j tj, (i < j)%nat → mt !! j = Some tj → t < tj) →
  loadpoint_lookup system t = Ok x.
Proof.
  intros Hmt Hlv Hlen Hti Hx Hle Hlast.
  unfold loadpoint_lookup. rewrite Hlv, Hmt. simpl.
  unfold bool_index, mask_le. rewrite length_fmap.
  rewrite decide_True by done. simpl. unfold last_item.
  rewrite (last_compress lv _ i x); try done.
  - apply mask_le_lookup. eauto.
  - intros j Hj Htrue. apply mask_le_lookup in Htrue as (tj & Htj & Hle').
    specialize (Hlast j tj Hj Htj). lra.
Qed.

(** ** The loadpoint-velocity lookup *)

Lemma loadpoint_lookup_exists (system : ExternalSystem)
  (mt lv : list R) (t t0 : R) :
  model_time system = Some mt → loadpoint_velocity system = Some lv →
  length mt = length lv →
  mt !! 0%nat = Some t0 → t0 <= t →
  ∃ i ti x,
    mt !! i = Some ti ∧ lv !! i = Some x ∧ ti <= t ∧
    (∀ j tj, (i < j)%nat → mt !! j = Some tj → t < tj) ∧
    (increasing mt → ∀ j tj, mt !! j = Some tj → tj <= t → tj <= ti) ∧
    loadpoint_lookup system t = Ok x.
Proof.
  intros Hmt Hlv Hlen H0 Hle.
  assert (mask_le mt t !! 0%nat = Some true) as Hm0
    by (apply mask_le_lookup; eauto).
  destruct (last_true_exists _ _ Hm0) as (i & Hi & Hlast).
  apply mask_le_lookup in Hi as (ti & Hti & Hlei).
  assert (is_Some (lv !! i)) as [x Hx].
  { apply lookup_lt_is_Some. rewrite <- Hlen. by eapply lookup_lt_Some. }
  assert (∀ j tj, (i < j)%nat → mt !! j = Some tj → t < tj) as Hafter.
  { intros j tj Hj Htj. destruct (Rlt_le_dec t tj) as [|Hc]; first done.
    exfalso. apply (Hlast j Hj). apply mask_le_lookup. eauto. }
  exists i, ti, x. repeat split; try done.
  - intros Hinc j tj Htj Hlej.
    destruct (decide (j = i)) as [->|Hne]; first (simplify_eq; lra).
    destruct (decide (j < i)%nat) as [Hlt|Hge].
    + specialize (Hinc j i tj ti Hlt Htj Hti). lra.
    + assert (i < j)%nat as Hgt by lia.
      specialize (Hafter j tj Hgt Htj). lra.
  - by eapply loadpoint_lookup_at.
Qed.

(** C2.  When the time grid and the loadpoint velocities have the same
    length and the query time [t] is at or after the first grid time,
    the lookup of the integration step is defined and returns the
    velocity stored at the last index whose grid time does not exceed
    [t]: every later grid time is strictly after [t], so nothing is
    interpolated and nothing after [t] is read.  On a strictly
    increasing grid that index holds the latest grid time [<= t].
    Whatever index has that property, the lookup returns the velocity
    stored there. *)
Theorem loadpoint_lookup_zero_order_hold (system : ExternalSystem)
  (mt lv : list R) (t t0 : R) :
  model_time system = Some mt → loadpoint_velocity system = Some lv →
  length mt = length lv →
  mt !! 0%nat = Some t0 → t0 <= t →
  (∃ i ti x,
      mt !! i = Some ti ∧ lv !! i = Some x ∧ ti <= t ∧
      (∀ j tj, (i < j)%nat → mt !! j = Some tj → t < tj) ∧
      (increasing mt → ∀ j tj, mt !! j = Some tj → tj <= t → tj <= ti) ∧
      loadpoint_lookup system t = Ok x) ∧
  (∀ i ti x,
      mt !! i = Some ti → lv !! i = Some x → ti <= t →
      (∀ j tj, (i < j)%nat → mt !! j = Some tj → t < tj) →
      loadpoint_lookup system t = Ok x).
Proof.
  intros Hmt Hlv Hlen H0 Hle. split.
  - by eapply loadpoint_lookup_exists.
  - intros i ti x Hti Hx Hlei Hafter. by eapply loadpoint_lookup_at.
Qed.

(** The scenario of C2: on the grid [0, 1, 2, 3] with velocities
    [5, 5, 9, 9], the lookup at [t = 1.5] returns [5]. *)
Lemma loadpoint_lookup_zero_order_hold_example :
  loadpoint_lookup hold_system 1.5 = Ok 5.
Proof.
  refine (proj2 (loadpoint_lookup_zero_order_hold hold_system
                   [0; 1; 2; 3] [5; 5; 9; 9] 1.5 0 _ _ _ _ _) 1%nat 1 5 _ _ _ _);
    try reflexivity; try lra.
  intros [|[|[|[|[|j]]]]] tj Hj Htj; simpl in Htj; try lia;
    try discriminate; injection Htj as <-; lra.
Defined.

(** C10.  At a query time at or after the last grid time, also
    strictly beyond it, the lookup is defined and returns the last
    loadpoint velocity. *)
Theorem loadpoint_lookup_past_the_grid (system : ExternalSystem)
  (mt lv : list R) (t tN : R) :
  model_time system = Some mt → loadpoint_velocity system = Some lv →
  length mt = length lv →
  last mt = Some tN → tN <= t →
  ∃ x, last lv = Some x ∧ loadpoint_lookup system t = Ok x.
Proof.
  intros Hmt Hlv Hlen HtN Hle.
  rewrite last_lookup in HtN.
  assert (is_Some (lv !! pred (length mt))) as [x Hx].
  { apply lookup_lt_is_Some. rewrite <- Hlen. by eapply lookup_lt_Some. }
  exists x. split.
  - rewrite last_lookup, <- Hlen. done.
  - eapply loadpoint_lookup_at; try done.
    intros j tj Hj Htj. apply lookup_lt_Some in Htj. lia.
Qed.

Lemma loadpoint_lookup_past_the_grid_example :
  ∃ x, last [5; 5; 9; 9] = Some x ∧ loadpoint_lookup hold_system 4 = Ok x.
Proof.
  apply (loadpoint_lookup_past_the_grid hold_system
           [0; 1; 2; 3] [5; 5; 9; 9] 4 3); try reflexivity; lra.
Defined.

(** ** The state relations *)



(** C5, the claim as stated fails.  On a law as [StateRelation()] makes
    it, whose [state] is [None], [velocity_component] raises
    [TypeError] and [evolve_state] raises [NameError]: neither is an
    [UninitializedStateError]. *)
Lemma unset_state_raises_builtin_errors :
  state (StateRelation_init RuinaState) = PyNone ∧
  velocity_component (StateRelation_init RuinaState) (sample_system [] [] [])
  = Raise TypeError ∧
  evolve_state (StateRelation_init RuinaState) (sample_system [] [] [])
  = Raise NameError ∧
  velocity_component (StateRelation_init RuinaState) (sample_system [] [] [])
  ≠ Raise UninitializedStateError ∧
  evolve_state (StateRelation_init RuinaState) (sample_system [] [] [])
  ≠ Raise UninitializedStateError.
Proof. done. Qed.

(** C5, amended.  On a state relation whose [state] is [None],
    [velocity_component] raises [TypeError], the error of Python's
    arithmetic on [None], for every class and whatever the other
    attributes hold: the method makes no check of its own and computes
    no value from a default state. *)
Theorem uninitialized_state_raises (law : StateRelation)
  (system : ExternalSystem) :
  state law = PyNone →
  velocity_component law system = Raise TypeError.
Proof.
  intros Hs. unfold velocity_component. rewrite Hs.
  by destruct (vref system).
Qed.

Lemma uninitialized_state_raises_example :
  velocity_component (StateRelation_init RuinaState) (sample_system [] [] [])
  = Raise TypeError.
Proof.
  apply (uninitialized_state_raises (StateRelation_init RuinaState)
           (sample_system [] [] [])). reflexivity.
Defined.

(** ** The integration step *)

Lemma assign_states_ok (pre : list float64) (thetas : list R)
  (laws : list StateRelation) (i : nat) :
  length pre = S i → length thetas = length laws →
  assign_states (pre ++ finite thetas) i laws
  = (Ok tt, with_states laws thetas).
Proof.
  revert pre thetas i.
  induction laws as [|law laws IH]; intros pre [|x thetas] i Hpre Hlen;
    try done.
  simpl in *. unfold item.
  rewrite lookup_app_r by lia.
  replace (i + 1 - length pre)%nat with 0%nat by lia. simpl.
  replace (pre ++ Fin x :: finite thetas)
    with ((pre ++ [Fin x]) ++ finite thetas)
    by (by rewrite <- app_assoc).
  rewrite (IH (pre ++ [Fin x]) thetas (S i)).
  - done.
  - rewrite length_app. simpl. lia.
  - lia.
Qed.

Lemma velocity_component_with_state (system : ExternalSystem)
  (law : StateRelation) (theta vr : R) :
  vref system = PyFloat vr → 0 < vr → configured law → 0 < theta →
  velocity_component (set_state (NpFloat theta) law) system
  = Ok (PyFloat (contribution vr law theta)).
Proof.
  intros Hvr Hpos (bb & d & Hb & Hd & Hdpos) Hth.
  unfold velocity_component, contribution. simpl. rewrite Hvr, Hb, Hd. simpl.
  rewrite fdiv_fin by lra. simpl.
  erewrite math_log_pos; [done | done |].
  apply Rdiv_lt_0_compat; [nra | done].
Qed.

Lemma v_contribution_loop_ok (system : ExternalSystem)
  (laws : list StateRelation) (thetas : list R) (vr acc : R) :
  vref system = PyFloat vr → 0 < vr →
  Forall configured laws → Forall (λ theta, 0 < theta) thetas →
  length thetas = length laws →
  v_contribution_loop (PyFloat acc) (with_states laws thetas) system
  = Ok (PyFloat (acc + total_contribution vr laws thetas)).
Proof.
  intros Hvr Hpos Hlaws. revert thetas acc.
  induction Hlaws as [|law laws Hlaw Hlaws IH]; intros [|x thetas] acc Hth Hlen;
    try done.
  - simpl. do 3 f_equal. unfold total_contribution. simpl. lra.
  - inversion Hth as [|? ? Hx Hth']; subst. simpl in *.
    rewrite (velocity_component_with_state system law x vr) by done. simpl.
    rewrite IH by (done || lia). do 3 f_equal.
    unfold total_contribution. simpl. lra.
Qed.

Lemma evolve_state_with_state (system : ExternalSystem)
  (law : StateRelation) (theta vel : R) :
  v system = PyFloat vel → 0 < vel → configured law → 0 < theta →
  evolve_state (set_state (NpFloat theta) law) system
  = Ok (NpFloat (rate vel law theta)).
Proof.
  intros Hv Hpos (bb & d & Hb & Hd & Hdpos) Hth.
  unfold evolve_state, rate. cbn -[pow]. rewrite Hv, Hd. cbn -[pow].
  destruct (cls law); cbn -[pow]; rewrite fdiv_fin by lra; cbn -[pow];
    try done.
  erewrite math_log_pos; [| done |].
  - cbn. do 3 f_equal. lra.
  - apply Rdiv_lt_0_compat; [nra | done].
Qed.

Lemma evolve_states_ok (system : ExternalSystem)
  (laws : list StateRelation) (thetas : list R) (vel : R) :
  v system = PyFloat vel → 0 < vel →
  Forall configured laws → Forall (λ theta, 0 < theta) thetas →
  length thetas = length laws →
  mapM (λ law, evolve_state law system) (with_states laws thetas)
  = Ok ((λ r : R, NpFloat r) <$> zip_with (rate vel) laws thetas).
Proof.
  intros Hv Hpos Hlaws. revert thetas.
  induction Hlaws as [|law laws Hlaw Hlaws IH]; intros [|x thetas] Hth Hlen;
    try done.
  inversion Hth as [|? ? Hx Hth']; subst. simpl in *.
  rewrite (evolve_state_with_state system law x vel) by done. simpl.
  rewrite IH by (done || lia). done.
Qed.

Lemma mapM_as_float_np (xs : list R) :
  mapM as_float ((λ r : R, NpFloat r) <$> xs) = Ok (finite xs).
Proof.
  induction xs as [|x xs IH]; first done.
  simpl.
  change (list_fmap R value (λ r : R, NpFloat r) xs)
    with ((λ r : R, NpFloat r) <$> xs).
  by rewrite IH.
Qed.

Lemma constitutive_velocity_pos (vr m m0 aa : R) laws thetas :
  0 < vr → 0 < constitutive_velocity vr m m0 aa laws thetas.
Proof.
  intros Hvr. unfold constitutive_velocity.
  apply Rmult_lt_0_compat; [done | apply exp_pos].
Qed.

(** The velocity that [velocity_evolution] computes on a vector of
    positive states, and the [OverflowError] of [math.exp] when the
    exponential leaves the range of floats. *)
Lemma velocity_evolution_ok (system : ExternalSystem) (m : R)
  (thetas : list R) (vr m0 aa : R) :
  length thetas = length (state_relations system) →
  vref system = PyFloat vr → 0 < vr →
  mu0 system = PyFloat m0 →
  a system = PyFloat aa → aa ≠ 0 →
  Forall configured (state_relations system) →
  Forall (λ theta, 0 < theta) thetas →
  let laws := state_relations system in
  let s1 := set_state_relations (with_states laws thetas)
              (set_mu (NpFloat m) system) in
  velocity_evolution s1
  = if decide (exp ((m - m0 - total_contribution vr laws thetas) / aa)
               <= float_max)
    then (Ok tt,
          set_v (PyFloat (constitutive_velocity vr m m0 aa laws thetas)) s1)
    else (Raise OverflowError, s1).
Proof.
  intros Hlen Hvr Hvrpos Hm0 Ha Hane Hlaws Hth laws s1.
  unfold velocity_evolution. simpl.
  rewrite (v_contribution_loop_ok s1 laws thetas vr 0) by done.
  simpl. rewrite Hm0. simpl. rewrite Ha. simpl.
  rewrite fdiv_fin by done. rewrite Rplus_0_l.
  case_decide as Hexp.
  - erewrite math_exp_fin; [| done | done]. simpl. by rewrite Hvr.
  - erewrite math_exp_overflow; [done | done | lra].
Qed.

Lemma integration_step_cases (self : RateState) (system : ExternalSystem)
  (m : R) (thetas : list R) (t : float64) (vr m0 aa kk : R) :
  length thetas = length (state_relations system) →
  vref system = PyFloat vr → 0 < vr →
  mu0 system = PyFloat m0 →
  a system = PyFloat aa → aa ≠ 0 →
  k system = PyFloat kk →
  Forall configured (state_relations system) →
  Forall (λ theta, 0 < theta) thetas →
  let laws := state_relations system in
  let vel := constitutive_velocity vr m m0 aa laws thetas in
  let s1 := set_state_relations (with_states laws thetas)
              (set_mu (NpFloat m) system) in
  _integrationStep self (finite (m :: thetas)) t system
  = if decide (exp ((m - m0 - total_contribution vr laws thetas) / aa)
               <= float_max)
    then match loadpoint_lookup system t with
         | Ok loadpoint_vel =>
             (Ok (finite (kk * (loadpoint_vel - vel)
                          :: zip_with (rate vel) laws thetas)),
              set_v (PyFloat vel) s1)
         | Raise e => (Raise e, set_v (PyFloat vel) s1)
         end
    else (Raise OverflowError, s1).
Proof.
  intros Hlen Hvr Hvrpos Hm0 Ha Hane Hk Hlaws Hth laws vel s1.
  pose proof (velocity_evolution_ok system m thetas vr m0 aa
                Hlen Hvr Hvrpos Hm0 Ha Hane Hlaws Hth) as Hvel.
  cbv zeta in Hvel. fold laws in Hvel. fold s1 in Hvel. fold vel in Hvel.
  unfold _integrationStep, mbind, M_bind, lift, modify, get. simpl.
  change (Fin m :: finite thetas) with ([Fin m] ++ finite thetas).
  rewrite (assign_states_ok [Fin m] thetas (state_relations system) 0)
    by done.
  fold laws. fold s1. rewrite Hvel.
  case_decide as Hexp; last done.
  replace (loadpoint_lookup (set_v (PyFloat vel) s1) t) with
    (loadpoint_lookup system t) by done.
  destruct (loadpoint_lookup system t) as [loadpoint_vel|e]; last done.
  unfold friction_evolution. simpl. rewrite Hk. simpl.
  rewrite (evolve_states_ok _ laws thetas vel); try done.
  - simpl. by rewrite mapM_as_float_np.
  - by apply constitutive_velocity_pos.
Qed.

Lemma integration_step_ok (self : RateState) (system : ExternalSystem)
  (m : R) (thetas : list R) (t : float64) (vr m0 aa kk loadpoint_vel : R) :
  length thetas = length (state_relations system) →
  vref system = PyFloat vr → 0 < vr →
  mu0 system = PyFloat m0 →
  a system = PyFloat aa → aa ≠ 0 →
  k system = PyFloat kk →
  Forall configured (state_relations system) →
  Forall (λ theta, 0 < theta) thetas →
  loadpoint_lookup system t = Ok loadpoint_vel →
  let laws := state_relations system in
  let vel := constitutive_velocity vr m m0 aa laws thetas in
  exp ((m - m0 - total_contribution vr laws thetas) / aa) <= float_max →
  _integrationStep self (finite (m :: thetas)) t system
  = (Ok (finite (kk * (loadpoint_vel - vel)
                 :: zip_with (rate vel) laws thetas)),
     set_v (PyFloat vel)
       (set_state_relations (with_states laws thetas)
          (set_mu (NpFloat m) system))).
Proof.
  intros Hlen Hvr Hvrpos Hm0 Ha Hane Hk Hlaws Hth Hlook laws vel Hexp.
  rewrite (integration_step_cases self system m thetas t vr m0 aa kk)
    by done.
  cbv zeta. fold laws. rewrite decide_True by done. by rewrite Hlook.
Qed.




(** ** What a run of the integrator leaves unchanged *)

Lemma same_law_refl (l : StateRelation) : same_law l l.
Proof. done. Qed.

Lemma same_law_trans (l1 l2 l3 : StateRelation) :
  same_law l1 l2 → same_law l2 l3 → same_law l1 l3.
Proof. intros (? & ? & ?) (? & ? & ?). repeat split; congruence. Qed.

Lemma same_laws_refl (laws : list StateRelation) : Forall2 same_law laws laws.
Proof. induction laws; constructor; done. Qed.

Lemma same_laws_trans (l1 l2 l3 : list StateRelation) :
  Forall2 same_law l1 l2 → Forall2 same_law l2 l3 → Forall2 same_law l1 l3.
Proof.
  intros H. revert l3. induction H; intros l3 H3; inversion H3; subst.
  - constructor.
  - constructor; [by eapply same_law_trans | by apply IHForall2].
Qed.

Lemma same_parameters_refl (s : ExternalSystem) : same_parameters s s.
Proof. repeat split. apply same_laws_refl. Qed.

Lemma same_parameters_trans (s1 s2 s3 : ExternalSystem) :
  same_parameters s1 s2 → same_parameters s2 s3 → same_parameters s1 s3.
Proof.
  intros (? & ? & ? & ? & ? & ? & ?) (? & ? & ? & ? & ? & ? & ?).
  repeat split; try congruence. by eapply same_laws_trans.
Qed.

Lemma assign_states_same_law (w : list float64) (i : nat)
  (laws : list StateRelation) :
  Forall2 same_law laws (assign_states w i laws).2.
Proof.
  revert i. induction laws as [|law laws IH]; intros i; simpl.
  - constructor.
  - destruct (item w (i + 1)); simpl.
    + specialize (IH (S i)). destruct (assign_states w (S i) laws). simpl in *.
      constructor; done.
    + apply same_laws_refl.
Qed.

Lemma velocity_evolution_same_parameters (s : ExternalSystem) :
  same_parameters s (velocity_evolution s).2.
Proof.
  unfold velocity_evolution.
  destruct (_ ← v_contribution_loop (PyFloat 0) (state_relations s) s; _);
    simpl.
  - repeat split. apply same_laws_refl.
  - apply same_parameters_refl.
Qed.

Lemma integration_step_same_parameters (self : RateState)
  (w : list float64) (t : float64) (s : ExternalSystem) :
  same_parameters s (_integrationStep self w t s).2.
Proof.
  unfold _integrationStep, mbind, M_bind, lift, modify, get.
  destruct (item w 0) as [m|e]; simpl; last apply same_parameters_refl.
  pose proof (assign_states_same_law w 0 (state_relations s)) as Hlaws.
  destruct (assign_states w 0 (state_relations s)) as [r laws]. simpl in Hlaws.
  set (s1 := set_state_relations laws (set_mu (NpFloat m) s)).
  assert (same_parameters s s1) as H1 by (repeat split; done).
  destruct r; last done.
  pose proof (velocity_evolution_same_parameters s1) as H2.
  destruct (velocity_evolution s1) as [r2 s2]. simpl in H2.
  assert (same_parameters s s2) as H3 by (by eapply same_parameters_trans).
  destruct r2; last done.
  destruct (loadpoint_lookup s2 t); last done.
  destruct (friction_evolution s2 _); last done.
  destruct (mapM _ (state_relations s2)); done.
Qed.

Lemma run_integrator_same_parameters (self : RateState) (p : integrator)
  (s : ExternalSystem) :
  same_parameters s (run_integrator (_integrationStep self) p s).2.
Proof.
  revert s. induction p as [wsol|e|w t next IH]; intros s; simpl.
  - apply same_parameters_refl.
  - apply same_parameters_refl.
  - unfold mbind, M_bind.
    pose proof (integration_step_same_parameters self w t s) as H1.
    destruct (_integrationStep self w t s) as [[dw|e] s1]; simpl in *.
    + eapply same_parameters_trans; first done. apply IH.
    + done.
Qed.

(** ** The initial conditions *)

Lemma initial_states_ok (system : ExternalSystem)
  (laws : list StateRelation) (vr : R) :
  vref system = PyFloat vr → vr ≠ 0 → Forall configured laws →
  initial_states system laws
  = (Ok ((λ law, PyFloat (steady_value vr law)) <$> laws),
     with_initial_states laws (steady_value vr <$> laws)).
Proof.
  intros Hvr Hne Hlaws.
  induction Hlaws as [|law laws (bb & d & Hb & Hd & Hdpos) Hlaws IH];
    first done.
  simpl. unfold _set_steady_state, steady_state at 1, steady_value at 1 3.
  rewrite Hvr, Hd. rewrite IH.
  destruct (cls law); simpl; rewrite py_div_py by done;
    rewrite fdiv_fin by done; done.
Qed.

Lemma initial_conditions_ok (system : ExternalSystem) (vr m0 : R) :
  vref system = PyFloat vr → vr ≠ 0 → mu0 system = PyFloat m0 →
  Forall configured (state_relations system) →
  let laws := state_relations system in
  initial_conditions system
  = (Ok ((λ r : R, PyFloat r) <$> m0 :: (steady_value vr <$> laws)),
     set_state_relations
       (with_initial_states laws (steady_value vr <$> laws)) system).
Proof.
  intros Hvr Hne Hm0 Hlaws laws. unfold initial_conditions.
  rewrite (initial_states_ok system _ vr) by done.
  fold laws. simpl. rewrite Hm0. by rewrite <- list_fmap_compose.
Qed.

Lemma mapM_as_float (xs : list R) :
  mapM as_float ((λ r : R, PyFloat r) <$> xs) = Ok (finite xs).
Proof.
  induction xs as [|x xs IH]; first done.
  simpl.
  change (list_fmap R value (λ r : R, PyFloat r) xs)
    with ((λ r : R, PyFloat r) <$> xs).
  by rewrite IH.
Qed.

(** ** Columns and elementwise arithmetic *)

Lemma column_ok (i : nat) (wsol : list (list R)) :
  Forall (λ row, (i < length row)%nat) wsol →
  column i (finite_matrix wsol)
  = Ok (finite ((λ row, default 0 (row !! i)) <$> wsol)).
Proof.
  unfold column, finite_matrix.
  induction 1 as [|row wsol Hrow Hrows IH]; first done.
  apply lookup_lt_is_Some in Hrow as [x Hx].
  simpl.
  change (list_fmap (list R) (list float64) finite wsol)
    with (finite <$> wsol).
  rewrite IH. unfold item, finite.
  rewrite list_lookup_fmap, Hx. done.
Qed.

Lemma fmap_ext_Forall {A B} (f g : A → B) (l : list A) :
  Forall (λ x, f x = g x) l → f <$> l = g <$> l.
Proof.
  induction 1 as [|x l Hx Hl IH]; first done. csimpl. by rewrite Hx, IH.
Qed.

Lemma columns_from_finite (i : nat) (wsol : list (list R)) :
  columns_from i (finite_matrix wsol) = finite_matrix (drop i <$> wsol).
Proof.
  unfold columns_from, finite_matrix, finite.
  rewrite <- !list_fmap_compose. apply fmap_ext_Forall, Forall_forall.
  intros row _. simpl. by rewrite fmap_drop.
Qed.

Lemma zip_with_fmap_diag {A B C D} (f : B → C → D) (g : A → B) (h : A → C)
  (l : list A) :
  zip_with f (g <$> l) (h <$> l) = (λ x, f (g x) (h x)) <$> l.
Proof. induction l as [|x l IH]; first done. csimpl. by rewrite IH. Qed.

Lemma total_contribution_cons (vr : R) (law : StateRelation)
  (laws : list StateRelation) (row : list R) (i : nat) (x : R) :
  row !! i = Some x →
  total_contribution vr (law :: laws) (drop i row)
  = contribution vr law x + total_contribution vr laws (drop (S i) row).
Proof.
  intros Hx. rewrite (drop_S _ _ _ Hx). done.
Qed.

(** The contribution of one law, computed on column [i] of a matrix of
    positive states and added to an accumulator that holds a value per
    row. *)
Lemma velocity_contribution_column (law : StateRelation) (vr bb d : R)
  (sts : list (list R)) (i : nat) (g : list R → R) :
  b law = PyFloat bb → Dc law = PyFloat d → 0 < d → 0 < vr →
  Forall (λ row, (i < length row)%nat ∧ Forall (λ x, 0 < x) row) sts →
  zip_with fadd (finite (g <$> sts))
    (fmul bb <$>
       (flog <$>
          ((λ x, fdiv x d) <$>
             (fmul vr <$> finite ((λ row, default 0 (row !! i)) <$> sts)))))
  = finite ((λ row, g row + contribution vr law (default 0 (row !! i)))
              <$> sts).
Proof.
  intros Hb Hd Hdpos Hpos Hsts. unfold finite.
  rewrite <- !list_fmap_compose, zip_with_fmap_diag.
  apply fmap_ext_Forall. eapply Forall_impl; first done.
  intros row [Hlen Hrow]. simpl.
  destruct (lookup_lt_is_Some_2 row i) as [x Hx]; first lia.
  rewrite Hx. simpl. rewrite Forall_lookup in Hrow.
  specialize (Hrow i x Hx). simpl in Hrow.
  rewrite fdiv_fin by lra.
  rewrite flog_pos by (apply Rdiv_lt_0_compat; [nra | done]).
  simpl. unfold contribution. rewrite Hb, Hd. done.
Qed.

(** One pass of the loop of [solve] over a column: the accumulator
    holds a value per row. *)
Lemma velocity_contribution_loop_array (system : ExternalSystem)
  (laws : list StateRelation) (sts : list (list R)) (vr : R) :
  vref system = PyFloat vr → 0 < vr → Forall configured laws →
  ∀ (i : nat) (g : list R → R),
    Forall (λ row, length row = (i + length laws)%nat ∧
                   Forall (λ x, 0 < x) row) sts →
    velocity_contribution_loop (Array (finite (g <$> sts))) i laws system
      (finite_matrix sts)
    = Ok (Array (finite
                   ((λ row, g row + total_contribution vr laws (drop i row))
                      <$> sts))).
Proof.
  intros Hvr Hpos Hlaws.
  induction Hlaws as [|law laws (bb & d & Hb & Hd & Hdpos) Hlaws IH];
    intros i g Hsts.
  - simpl. do 3 f_equal. apply fmap_ext_Forall.
    eapply Forall_impl; first done. intros row [Hlen _]. simpl.
    unfold total_contribution. simpl. lra.
  - simpl. rewrite column_ok; last first.
    { eapply Forall_impl; first done. intros row [Hlen _]. simpl in *. lia. }
    simpl. rewrite Hvr. simpl. rewrite Hd. simpl. rewrite Hb. simpl.
    unfold broadcast.
    rewrite decide_True by (unfold finite; by rewrite !length_fmap). simpl.
    rewrite (velocity_contribution_column law vr bb d sts i g); try done;
      last first.
    { eapply Forall_impl; first done. intros row [Hlen Hrow].
      simpl in *. split; [lia | done]. }
    rewrite (IH (S i)); last first.
    { eapply Forall_impl; first done. intros row [Hlen Hrow].
      simpl in *. split; [lia | done]. }
    do 3 f_equal. apply fmap_ext_Forall.
    eapply Forall_impl; first done. intros row [Hlen _]. simpl in *.
    destruct (lookup_lt_is_Some_2 row i) as [x Hx]; first lia.
    rewrite (total_contribution_cons _ _ _ _ _ x Hx), Hx. simpl. lra.
Qed.

Lemma velocity_contribution_loop_ok (system : ExternalSystem)
  (laws : list StateRelation) (sts : list (list R)) (vr x : R) :
  vref system = PyFloat vr → 0 < vr → Forall configured laws →
  Forall (λ row, length row = length laws ∧ Forall (λ x, 0 < x) row) sts →
  velocity_contribution_loop (Scalar x) 0 laws system (finite_matrix sts)
  = Ok (match laws with
        | [] => Scalar x
        | _ => Array (finite ((λ row, x + total_contribution vr laws row)
                                <$> sts))
        end).
Proof.
  intros Hvr Hpos Hlaws Hsts.
  destruct Hlaws as [|law laws (bb & d & Hb & Hd & Hdpos) Hlaws]; first done.
  simpl. rewrite column_ok; last first.
  { eapply Forall_impl; first done. intros row [Hlen _]. simpl in *. lia. }
  simpl. rewrite Hvr. simpl. rewrite Hd. simpl. rewrite Hb. simpl.
  assert (fadd x <$>
            (fmul bb <$>
               (flog <$>
                  ((λ y, fdiv y d) <$>
                     (fmul vr <$>
                        finite ((λ row, default 0 (row !! 0%nat)) <$> sts)))))
          = finite ((λ row, x + contribution vr law (default 0 (row !! 0%nat)))
                      <$> sts)) as Hacc.
  { unfold finite. rewrite <- !list_fmap_compose.
    apply fmap_ext_Forall. eapply Forall_impl; first done.
    intros row [Hlen Hrow]. simpl in *.
    destruct (lookup_lt_is_Some_2 row 0) as [y Hy]; first lia.
    rewrite Hy. simpl. rewrite Forall_lookup in Hrow.
    specialize (Hrow 0%nat y Hy). simpl in Hrow.
    rewrite fdiv_fin by lra.
    rewrite flog_pos by (apply Rdiv_lt_0_compat; [nra | done]).
    simpl. unfold contribution. rewrite Hb, Hd. done. }
  rewrite Hacc.
  rewrite (velocity_contribution_loop_array system laws sts vr); try done.
  do 3 f_equal. apply fmap_ext_Forall.
  eapply Forall_impl; first done. intros row [Hlen _]. simpl in *.
  destruct (lookup_lt_is_Some_2 row 0) as [y Hy]; first lia.
  rewrite <- (drop_0 row) at 3.
  rewrite (total_contribution_cons _ _ _ _ _ y Hy), Hy. simpl. lra.
Qed.

Lemma slider_velocity_of_ok (system : ExternalSystem)
  (laws : list StateRelation) (wsol : list (list R)) (vr m0 aa : R) :
  vref system = PyFloat vr → mu0 system = PyFloat m0 →
  a system = PyFloat aa → aa ≠ 0 →
  slider_velocity_of system
    (finite ((λ row, default 0 (row !! 0%nat)) <$> wsol))
    (match laws with
     | [] => Scalar 0
     | _ => Array (finite ((λ row, 0 + total_contribution vr laws row)
                             <$> (drop 1 <$> wsol)))
     end)
  = Ok (Array (finite
                 ((λ row, constitutive_velocity vr (default 0 (row !! 0%nat))
                            m0 aa laws (drop 1 row)) <$> wsol))).
Proof.
  intros Hvr Hm0 Ha Hane. unfold slider_velocity_of.
  rewrite Hm0, Ha, Hvr. simpl.
  destruct laws as [|law laws]; simpl.
  - unfold finite. rewrite <- !list_fmap_compose. do 2 f_equal.
    apply fmap_ext_Forall, Forall_forall. intros row _. simpl.
    rewrite fdiv_fin by done. simpl.
    unfold constitutive_velocity, total_contribution. done.
  - unfold broadcast.
    rewrite decide_True by (unfold finite; by rewrite !length_fmap). simpl.
    unfold finite. rewrite <- !list_fmap_compose, zip_with_fmap_diag.
    rewrite <- !list_fmap_compose. do 2 f_equal.
    apply fmap_ext_Forall, Forall_forall. intros row _. simpl.
    rewrite fdiv_fin by done. simpl.
    unfold constitutive_velocity. by rewrite Rplus_0_l.
Qed.

Lemma length_ediff1d (xs : list R) : length (ediff1d xs) = (length xs - 1)%nat.
Proof.
  induction xs as [|x [|y xs] IH]; try done.
  simpl in *. rewrite IH. lia.
Qed.

Lemma displacement_of_ok (system : ExternalSystem) (mt lv : list R) :
  model_time system = Some mt → loadpoint_velocity system = Some lv →
  length mt = length lv →
  displacement_of system = Ok (displacement_formula mt lv).
Proof.
  intros Hmt Hlv Hlen. unfold displacement_of. rewrite Hmt, Hlv. simpl.
  unfold broadcast. rewrite decide_True; first done.
  unfold all_but_last. rewrite length_take, length_ediff1d. lia.
Qed.

Lemma configured_same_law (laws laws' : list StateRelation) :
  Forall2 same_law laws laws' → Forall configured laws →
  Forall configured laws'.
Proof.
  induction 1 as [|l l' laws laws' (Hc & Hb & Hd) Hrest IH]; first done.
  intros Hall. inversion Hall as [|? ? (bb & d & ? & ? & ?) Hall']; subst.
  constructor; last by apply IH.
  exists bb, d. repeat split; congruence.
Qed.

Lemma total_contribution_same_law (vr : R) (laws laws' : list StateRelation)
  (thetas : list R) :
  Forall2 same_law laws laws' →
  total_contribution vr laws thetas = total_contribution vr laws' thetas.
Proof.
  intros H. revert thetas.
  induction H as [|l l' laws laws' (Hc & Hb & Hd) Hrest IH];
    intros [|x thetas]; try done.
  unfold total_contribution in *. simpl. rewrite IH.
  unfold contribution. by rewrite Hb, Hd.
Qed.

(** ** The outcome of [solve] *)

Lemma bind_ok {S A B} (m : M S A) (f : A → M S B) (s s' : S) (x : A) :
  m s = (Ok x, s') → (m ≫= f) s = f x s'.
Proof. intros H. unfold mbind, M_bind. by rewrite H. Qed.

Lemma on_system_run {A} (m : M ExternalSystem A) (s : store)
  (r : result A) (system' : ExternalSystem) :
  m s.1 = (r, system') → on_system m s = (r, (system', s.2)).
Proof. intros H. unfold on_system. by rewrite H. Qed.

Lemma setattr_twice (l : loc) (g : results → results)
  (system : ExternalSystem) (h : heap) (r : results) :
  setattr l g (system, <[l := r]> h) = (Ok tt, (system, <[l := g r]> h)).
Proof.
  unfold setattr. simpl. by rewrite lookup_insert_eq, insert_insert_eq.
Qed.

Lemma default_kwargs_lookup (kwargs : gmap string R) (key : string) :
  (kwargs ∪ default_kwargs) !! key
  = if decide (key = "rtol" ∨ key = "atol")
    then Some (default 1e-12 (kwargs !! key))
    else kwargs !! key.
Proof.
  rewrite lookup_union. unfold default_kwargs.
  destruct (decide (key = "rtol")) as [->|Hr].
  - rewrite decide_True by (by left).
    rewrite lookup_insert_eq. by destruct (kwargs !! "rtol").
  - rewrite lookup_insert_ne by done.
    destruct (decide (key = "atol")) as [->|Ha].
    + rewrite decide_True by (by right).
      rewrite lookup_singleton_eq. by destruct (kwargs !! "atol").
    + rewrite decide_False by (by intros [?|?]).
      rewrite lookup_singleton_ne by done. by destruct (kwargs !! key).
Qed.

Lemma odeint_kwargs_args (kwargs : gmap string R) :
  (kwargs ∪ default_kwargs) !! "args" = kwargs !! "args".
Proof.
  rewrite default_kwargs_lookup. by rewrite decide_False by (by intros [?|?]).
Qed.

Section SolveOutcome.

Variable odeint : list float64 → list R → gmap string R → integrator.

Lemma solve_ok (self : RateState) (kwargs : gmap string R)
  (system sys2 : ExternalSystem) (h : heap) (vr m0 aa : R)
  (mt lv : list R) (wsol : list (list R)) :
  kwargs !! "args" = None →
  vref system = PyFloat vr → 0 < vr →
  mu0 system = PyFloat m0 →
  a system = PyFloat aa → aa ≠ 0 →
  Forall configured (state_relations system) →
  model_time system = Some mt → loadpoint_velocity system = Some lv →
  length mt = length lv →
  let laws := state_relations system in
  let y0 := finite (m0 :: (steady_value vr <$> laws)) in
  run_integrator (_integrationStep self)
    (odeint y0 mt (kwargs ∪ default_kwargs))
    (set_state_relations
       (with_initial_states laws (steady_value vr <$> laws)) system)
  = (Ok (finite_matrix wsol), sys2) →
  Forall (λ row, length row = S (length laws) ∧
                 Forall (λ x, 0 < x) (drop 1 row)) wsol →
  solve odeint self kwargs (system, h)
  = (Ok (self_results self),
     (sys2, <[self_results self := solved vr m0 aa laws mt lv wsol]> h)).
Proof.
  intros Hargs Hvr Hpos Hm0 Ha Hane Hlaws Hmt Hlv Hlen laws y0 Hrun Hwsol.
  pose proof (run_integrator_same_parameters self
                (odeint y0 mt (kwargs ∪ default_kwargs))
                (set_state_relations
                   (with_initial_states laws (steady_value vr <$> laws))
                   system))
    as Hsame.
  rewrite Hrun in Hsame. simpl in Hsame.
  destruct Hsame as (Hm0' & Ha' & _ & Hvr' & Hmt' & Hlv' & Hlaws').
  simpl in Hm0', Ha', Hvr', Hmt', Hlv', Hlaws'.
  assert (Forall2 same_law laws (state_relations sys2)) as Hlaws2.
  { eapply same_laws_trans; last done.
    unfold with_initial_states, laws. clear.
    induction (state_relations system) as [|l ls IH]; first constructor.
    csimpl. constructor; done. }
  unfold solve, readyCheck. simpl negb. cbv iota.
  erewrite bind_ok; last done.
  erewrite bind_ok; last first.
  { apply on_system_run. simpl.
    apply (initial_conditions_ok system vr m0); done || lra. }
  fold laws.
  erewrite bind_ok; last first.
  { apply on_system_run. simpl. unfold mbind, M_bind, get, lift. simpl.
    rewrite Hmt. done. }
  erewrite bind_ok; last first.
  { rewrite decide_False; first done.
    rewrite odeint_kwargs_args, Hargs. by intros []. }
  erewrite bind_ok; last first.
  { unfold lift. by rewrite mapM_as_float. }
  erewrite bind_ok; last first.
  { apply on_system_run. simpl. exact Hrun. }
  cbn [fst snd]. unfold postprocess.
  erewrite bind_ok; last first.
  { unfold lift. rewrite column_ok; first done.
    eapply Forall_impl; first done. intros row [Hl _]. simpl. lia. }
  erewrite bind_ok; last by unfold setattr.
  cbn [fst snd].
  erewrite bind_ok; last by apply setattr_twice.
  erewrite bind_ok; last by apply setattr_twice.
  erewrite bind_ok; last by (apply on_system_run; unfold get).
  cbn [fst snd].
  erewrite bind_ok; last first.
  { unfold getobj. cbn [fst snd]. by rewrite lookup_insert_eq. }
  erewrite bind_ok; last by unfold lift.
  erewrite bind_ok; last first.
  { unfold lift. rewrite columns_from_finite.
    rewrite (velocity_contribution_loop_ok sys2 _ _ vr 0); try done.
    - congruence.
    - by eapply configured_same_law.
    - rewrite Forall_fmap.
      eapply Forall_impl; first done. intros row [Hl Hrow]. simpl.
      split; last done. rewrite length_drop, Hl.
      apply Forall2_length in Hlaws2. lia. }
  erewrite bind_ok; last by unfold lift.
  erewrite bind_ok; last first.
  { unfold lift.
    rewrite (slider_velocity_of_ok sys2 (state_relations sys2) wsol
               vr m0 aa); try done; congruence. }
  erewrite bind_ok; last by apply setattr_twice.
  erewrite bind_ok; last first.
  { unfold lift. rewrite (displacement_of_ok sys2 mt lv); try done;
      congruence. }
  erewrite bind_ok; last by apply setattr_twice.
  unfold mret, M_ret. do 3 f_equal.
  unfold solved, set_displacement, set_slider_velocity. simpl.
  do 4 f_equal.
  apply fmap_ext_Forall, Forall_forall. intros row _.
  unfold constitutive_velocity.
  by rewrite (total_contribution_same_law vr laws (state_relations sys2)).
Qed.

End SolveOutcome.

(** ** The displacement *)

Lemma ediff1d_lookup (xs : list R) (j : nat) (tj tj' : R) :
  xs !! j = Some tj → xs !! S j = Some tj' →
  ediff1d xs !! j = Some (tj' - tj).
Proof.
  revert j. induction xs as [|x [|y xs] IH]; intros j Hj Hj'; try done.
  destruct j as [|j].
  - simpl in *. by simplify_eq.
  - change (ediff1d (x :: y :: xs) !! S j) with (ediff1d (y :: xs) !! j).
    by apply IH.
Qed.

Lemma all_but_last_lookup (xs : list R) (j : nat) (x : R) :
  xs !! j = Some x → (S j < length xs)%nat →
  all_but_last xs !! j = Some x.
Proof.
  intros Hx Hj. unfold all_but_last. rewrite lookup_take_lt by lia. done.
Qed.

Lemma cumsum_from_lookup (acc : R) (xs : list R) (j : nat) (x : R) :
  xs !! j = Some x →
  ∃ d, (acc :: cumsum_from acc xs) !! j = Some d ∧
       cumsum_from acc xs !! j = Some (d + x).
Proof.
  revert acc j. induction xs as [|y xs IH]; intros acc j Hx; first done.
  destruct j as [|j].
  - simpl in *. simplify_eq. by exists acc.
  - simpl in Hx. destruct (IH (acc + y) j Hx) as (d & Hd & Hd').
    exists d. done.
Qed.

Lemma displacement_formula_step (mt lv : list R) (j : nat) (tj tj' x : R) :
  length mt = length lv →
  mt !! j = Some tj → mt !! S j = Some tj' → lv !! j = Some x →
  ∃ d, displacement_formula mt lv !! j = Some d ∧
       displacement_formula mt lv !! S j = Some (d + x * (tj' - tj)).
Proof.
  intros Hlen Hj Hj' Hx. unfold displacement_formula, cumsum.
  apply (cumsum_from_lookup 0 _ j (x * (tj' - tj))).
  rewrite lookup_zip_with.
  rewrite (all_but_last_lookup lv j x); try done.
  - by rewrite (ediff1d_lookup mt j tj tj').
  - rewrite <- Hlen. by eapply lookup_lt_Some.
Qed.

(** C6.  When the integration returns the matrix [wsol], with one row
    of length [1 + number of laws] per grid time and positive states
    (and the caller passes no keyword [args], which the call of
    [odeint] would refuse),
    [solve] stores in the results object: [friction = wsol[:, 0]];
    [states = wsol[:, 1:]]; the slider velocity recomputed row by row as
    [vref * exp ((friction[j] - mu0 - sum_i b_i * ln (vref * states[j, i] / Dc_i)) / a)],
    a function of the solved row and of the parameters only, not of the
    scratch [v] left in the system; and the displacement, which starts
    at [0] and grows at index [j + 1] by
    [loadpoint_velocity[j] * (time[j + 1] - time[j])]. *)
Theorem solve_postprocessing
  (odeint : list float64 → list R → gmap string R → integrator)
  (self : RateState) (kwargs : gmap string R)
  (system sys2 : ExternalSystem) (h : heap) (vr m0 aa : R)
  (mt lv : list R) (wsol : list (list R)) :
  kwargs !! "args" = None →
  vref system = PyFloat vr → 0 < vr →
  mu0 system = PyFloat m0 →
  a system = PyFloat aa → aa ≠ 0 →
  Forall configured (state_relations system) →
  model_time system = Some mt → loadpoint_velocity system = Some lv →
  length mt = length lv →
  let laws := state_relations system in
  let y0 := finite (m0 :: (steady_value vr <$> laws)) in
  run_integrator (_integrationStep self)
    (odeint y0 mt (kwargs ∪ default_kwargs))
    (set_state_relations
       (with_initial_states laws (steady_value vr <$> laws)) system)
  = (Ok (finite_matrix wsol), sys2) →
  Forall (λ row, length row = S (length laws) ∧
                 Forall (λ x, 0 < x) (drop 1 row)) wsol →
  ∃ (h' : heap) (r : results) (sv disp : list R),
    solve odeint self kwargs (system, h)
    = (Ok (self_results self), (sys2, h')) ∧
    h' !! self_results self = Some r ∧
    friction r = Some (finite ((λ row, default 0 (row !! 0%nat)) <$> wsol)) ∧
    states r = Some (finite_matrix (drop 1 <$> wsol)) ∧
    time r = Some mt ∧
    slider_velocity r = Some (Array (finite sv)) ∧
    length sv = length wsol ∧
    (∀ j row mu_j, wsol !! j = Some row → row !! 0%nat = Some mu_j →
       sv !! j = Some (vr * exp ((mu_j - m0
                                  - total_contribution vr laws (drop 1 row))
                                 / aa))) ∧
    displacement r = Some disp ∧
    disp !! 0%nat = Some 0 ∧
    (∀ j tj tj' x,
       mt !! j = Some tj → mt !! S j = Some tj' → lv !! j = Some x →
       ∃ d, disp !! j = Some d ∧ disp !! S j = Some (d + x * (tj' - tj))).
Proof.
  intros Hargs Hvr Hpos Hm0 Ha Hane Hlaws Hmt Hlv Hlen laws y0 Hrun Hwsol.
  exists (<[self_results self := solved vr m0 aa laws mt lv wsol]> h),
    (solved vr m0 aa laws mt lv wsol).
  eexists. exists (displacement_formula mt lv).
  split; first by eapply solve_ok.
  split; first by rewrite lookup_insert_eq.
  repeat split.
  - by rewrite length_fmap.
  - intros j row mu_j Hrow Hmu. rewrite list_lookup_fmap, Hrow. simpl.
    by rewrite Hmu.
  - intros j tj tj' x Hj Hj' Hx. by eapply displacement_formula_step.
Qed.

(** ** A run at steady state *)

(** In the worked example the initial conditions are a fixed point: the
    slider moves at the reference velocity. *)
Lemma steady_velocity (m0 : R) (s : value) :
  constitutive_velocity 1 m0 m0 0.005
    [set_state s (sample_law DieterichState)] [10 / 1]
  = 1.
Proof.
  unfold constitutive_velocity, total_contribution, contribution. simpl.
  replace (1 * (10 / 1) / 10) with 1 by lra. rewrite ln_1.
  replace ((m0 - m0 - (0.01 * 0 + 0)) / 0.005) with 0 by lra.
  rewrite exp_0. lra.
Qed.

Lemma steady_exponent (m0 : R) (s : value) :
  exp ((m0 - m0
        - total_contribution 1
            [set_state s (sample_law DieterichState)] [10 / 1]) / 0.005)
  <= float_max.
Proof.
  unfold total_contribution, contribution. simpl.
  replace (1 * (10 / 1) / 10) with 1 by lra. rewrite ln_1.
  replace ((m0 - m0 - (0.01 * 0 + 0)) / 0.005) with 0 by lra.
  rewrite exp_0. apply float_max_ge_1.
Qed.

Lemma steady_run (self : RateState) (kwargs : gmap string R) (m0 : R) :
  let laws := state_relations (steady_system_at m0) in
  ∃ sys2,
    run_integrator (_integrationStep self)
      (euler (finite (m0 :: (steady_value 1 <$> laws))) [0; 1] kwargs)
      (set_state_relations
         (with_initial_states laws (steady_value 1 <$> laws))
         (steady_system_at m0))
    = (Ok (finite_matrix [[m0; 10]; [m0; 10]]), sys2).
Proof.
  intros laws. eexists. simpl.
  erewrite bind_ok; last first.
  { apply (integration_step_ok self _ m0 [10 / 1] 0 1 m0 0.005 1e-3 1);
      try done; try lra.
    - repeat constructor. exists 0.01, 10. repeat split; lra.
    - repeat constructor. lra.
    - apply (loadpoint_lookup_at _ [0; 1] [1; 1] 0 0%nat 0 1);
        try done; try lra.
      intros [|[|j]] tj Hj Htj; simpl in Htj; try lia; simplify_eq; lra.
    - apply steady_exponent. }
  simpl. unfold mret, M_ret. f_equal. f_equal.
  rewrite steady_velocity. unfold rate, steady_value. simpl.
  repeat f_equal; lra.
Qed.

Lemma solve_postprocessing_example :
  ∃ sys2 h' r sv disp,
    solve euler sample_simulator ∅ (steady_system, sample_heap)
    = (Ok (self_results sample_simulator), (sys2, h')) ∧
    h' !! self_results sample_simulator = Some r ∧
    friction r = Some (finite [0.6; 0.6]) ∧
    states r = Some (finite_matrix [[10]; [10]]) ∧
    time r = Some [0; 1] ∧
    slider_velocity r = Some (Array (finite sv)) ∧
    sv !! 1%nat
    = Some (1 * exp ((0.6 - 0.6
                      - total_contribution 1 [sample_law DieterichState] [10])
                     / 0.005)) ∧
    displacement r = Some disp ∧
    disp !! 0%nat = Some 0 ∧
    disp !! 1%nat = Some (0 + 1 * (1 - 0)).
Proof.
  destruct (steady_run sample_simulator (∅ ∪ default_kwargs) 0.6)
    as [sys2 Hrun].
  destruct (solve_postprocessing euler sample_simulator ∅ steady_system sys2
              sample_heap 1 0.6 0.005 [0; 1] [1; 1] [[0.6; 10]; [0.6; 10]])
    as (h' & r & sv & disp & Hsolve & Hr & Hfr & Hst & Htime & Hsv & Hlen
        & Hsvj & Hdisp & Hd0 & Hstep); try done; try lra.
  - repeat constructor. exists 0.01, 10. repeat split; lra.
  - repeat constructor; simpl; lra.
  - exists sys2, h', r, sv, disp. repeat split; try done.
    + apply (Hsvj 1%nat [0.6; 10] 0.6); done.
    + destruct (Hstep 0%nat 0 1 1) as (d & Hd & Hd'); try done.
      rewrite Hd0 in Hd. by simplify_eq.
Defined.

(** ** The readiness check *)

Lemma lawless_run (self : RateState) (kwargs : gmap string R) :
  ∃ wsol sys2,
    run_integrator (_integrationStep self)
      (euler (finite [0.6]) [0; 1] kwargs)
      (set_state_relations [] lawless_system)
    = (Ok (finite_matrix wsol), sys2) ∧
    Forall (λ row, length row = 1%nat ∧ Forall (λ x, 0 < x) (drop 1 row)) wsol.
Proof.
  exists [[0.6]; [0.6 + (1 - 0) * (1e-3 * (1 - 1 * exp ((0.6 - 0.6 - 0) / 0.005)))]].
  eexists. simpl. split.
  - erewrite bind_ok; last first.
    { apply (integration_step_ok self _ 0.6 [] 0 1 0.6 0.005 1e-3 1);
        try done; try lra.
      - apply (loadpoint_lookup_at _ [0; 1] [1; 1] 0 0%nat 0 1);
          try done; try lra.
        intros [|[|j]] tj Hj Htj; simpl in Htj; try lia; simplify_eq; lra.
      - unfold total_contribution. simpl.
        replace ((0.6 - 0.6 - 0) / 0.005) with 0 by lra.
        rewrite exp_0. apply float_max_ge_1. }
    simpl. done.
  - repeat constructor.
Qed.

(** C4 (the code against the claim).  [readyCheck] is true for every
    simulator, so [solve] never raises the error of its readiness test.
    On a system without any state relation it integrates and returns
    the results object. *)
Theorem solve_without_state_relation :
  readyCheck sample_simulator = true ∧
  state_relations lawless_system = [] ∧
  ∃ sys2 h',
    solve euler sample_simulator ∅ (lawless_system, sample_heap)
    = (Ok (self_results sample_simulator), (sys2, h')).
Proof.
  split; first done. split; first done.
  destruct (lawless_run sample_simulator (∅ ∪ default_kwargs))
    as (wsol & sys2 & Hrun & Hwsol).
  exists sys2. eexists.
  apply (solve_ok euler sample_simulator ∅ lawless_system sys2 sample_heap
           1 0.6 0.005 [0; 1] [1; 1] wsol); try done; lra.
Qed.

(** ** The results object *)

Lemma solve_steady (self : RateState) (m0 : R) (h : heap) :
  ∃ sys2,
    solve euler self ∅ (steady_system_at m0, h)
    = (Ok (self_results self),
       (sys2,
        <[self_results self :=
            solved 1 m0 0.005 [sample_law DieterichState] [0; 1] [1; 1]
              [[m0; 10]; [m0; 10]]]> h)).
Proof.
  destruct (steady_run self (∅ ∪ default_kwargs) m0) as [sys2 Hrun].
  exists sys2.
  apply (solve_ok euler self ∅ (steady_system_at m0) sys2 h
           1 m0 0.005 [0; 1] [1; 1] [[m0; 10]; [m0; 10]]);
    try done; try lra.
  - repeat constructor. exists 0.01, 10. repeat split; lra.
  - repeat constructor; simpl; lra.
Qed.

(** C8 (the code against the claim).  One simulator solves a system
    with [mu0 = 0.6] and then a system with [mu0 = 0.7].  Both calls
    return the same reference, the results object made by [__init__],
    and after the second call the friction read through the reference
    returned by the first call is the second trajectory. *)
Theorem results_object_is_shared :
  ∃ (l : loc) (sysA sysB : ExternalSystem) (hA hB : heap) (rA rB : results),
    solve euler sample_simulator ∅ (steady_system_at 0.6, sample_heap)
    = (Ok l, (sysA, hA)) ∧
    hA !! l = Some rA ∧ friction rA = Some (finite [0.6; 0.6]) ∧
    solve euler sample_simulator ∅ (steady_system_at 0.7, hA)
    = (Ok l, (sysB, hB)) ∧
    hB !! l = Some rB ∧ friction rB = Some (finite [0.7; 0.7]).
Proof.
  destruct (solve_steady sample_simulator 0.6 sample_heap) as [sysA HA].
  destruct (solve_steady sample_simulator 0.7
              (<[self_results sample_simulator :=
                   solved 1 0.6 0.005 [sample_law DieterichState] [0; 1]
                     [1; 1] [[0.6; 10]; [0.6; 10]]]> sample_heap))
    as [sysB HB].
  exists (self_results sample_simulator), sysA, sysB.
  do 4 eexists.
  split; first exact HA.
  split; first by rewrite lookup_insert_eq.
  split; first done.
  split; first exact HB.
  split; first by rewrite lookup_insert_eq.
  done.
Qed.

(** ** Whose time grid [solve] uses *)

Lemma initial_conditions_model_time (system : ExternalSystem) :
  model_time (initial_conditions system).2 = model_time system.
Proof.
  unfold initial_conditions.
  by destruct (initial_states system (state_relations system)).
Qed.

(** C7 (the code against the claim).  [RateState.__init__] makes the
    attributes [model_time] ("list of times we want answers at") and
    [loadpoint_velocity] ("matching list of velocities") of the
    simulator, and [solve] and the step read neither.  With the
    simulator's own grid set and a system that carries none, [solve]
    raises [AttributeError] instead of integrating over the simulator's
    grid; and in a step on a system whose loadpoint velocity is [1],
    run by a simulator whose own loadpoint velocities are [9], the
    friction rate is [k * (1 - v)]. *)
Theorem solve_ignores_own_grid :
  self_model_time own_grid_simulator = Some [0; 1] ∧
  self_loadpoint_velocity own_grid_simulator = [9; 9] ∧
  (solve euler own_grid_simulator ∅ (gridless_system, sample_heap)).1
  = Raise AttributeError ∧
  (_integrationStep own_grid_simulator (finite [0.6; 10]) 0 steady_system).1
  = Ok (let vel := constitutive_velocity 1 0.6 0.6 0.005
                     [sample_law DieterichState] [10] in
        finite [1e-3 * (1 - vel); rate vel (sample_law DieterichState) 10]).
Proof.
  split; first done. split; first done. split.
  - unfold solve, readyCheck. simpl negb. cbv iota.
    erewrite bind_ok; last done.
    erewrite bind_ok; last first.
    { apply on_system_run. simpl.
      apply (initial_conditions_ok gridless_system 1 0.6); try done; try lra.
      repeat constructor. exists 0.01, 10. repeat split; lra. }
    done.
  - rewrite (integration_step_ok own_grid_simulator steady_system 0.6 [10] 0
               1 0.6 0.005 1e-3 1); try done; try lra.
    + repeat constructor. exists 0.01, 10. repeat split; lra.
    + repeat constructor. lra.
    + apply (loadpoint_lookup_at _ [0; 1] [1; 1] 0 0%nat 0 1);
        try done; try lra.
      intros [|[|j]] tj Hj Htj; simpl in Htj; try lia; simplify_eq; lra.
    + unfold total_contribution, contribution. simpl.
      replace (1 * 10 / 10) with 1 by lra. rewrite ln_1.
      replace ((0.6 - 0.6 - (0.01 * 0 + 0)) / 0.005) with 0 by lra.
      rewrite exp_0. apply float_max_ge_1.
Qed.

Lemma solve_cases
  (odeint : list float64 → list R → gmap string R → integrator)
  (self : RateState) (kwargs : gmap string R)
  (system : ExternalSystem) (h : heap) :
  solve odeint self kwargs (system, h)
  = match initial_conditions system with
    | (Raise e, sys1) => (Raise e, (sys1, h))
    | (Ok w0, sys1) =>
        match model_time sys1 with
        | None => (Raise AttributeError, (sys1, h))
        | Some mt =>
            match kwargs !! "args" with
            | Some _ => (Raise TypeError, (sys1, h))
            | None =>
                match mapM as_float w0 with
                | Raise e => (Raise e, (sys1, h))
                | Ok y0 =>
                    match run_integrator (_integrationStep self)
                            (odeint y0 mt (kwargs ∪ default_kwargs))
                            sys1 with
                    | (Raise e, sys2) => (Raise e, (sys2, h))
                    | (Ok wsol, sys2) => postprocess self wsol mt (sys2, h)
                    end
                end
            end
        end
    end.
Proof.
  unfold solve, readyCheck. simpl negb. cbv iota.
  erewrite bind_ok; last done.
  unfold mbind at 1, M_bind at 1, on_system at 1. simpl.
  destruct (initial_conditions system) as [[w0|e] sys1]; last done.
  unfold mbind at 1, M_bind at 1, on_system at 1. simpl.
  unfold mbind at 1, M_bind at 1, get, lift at 1. simpl.
  destruct (model_time sys1) as [mt|]; last done. simpl.
  rewrite odeint_kwargs_args.
  destruct (kwargs !! "args") as [x|].
  { rewrite decide_True by (by eexists). done. }
  rewrite decide_False by (by intros []).
  unfold mret at 1, M_ret at 1. cbv beta iota.
  unfold mbind at 1, M_bind at 1.
  destruct (mapM as_float w0) as [y0|e]; last done.
  unfold mbind at 1, M_bind at 1, on_system at 1. simpl.
  destruct (run_integrator _ _ sys1) as [[wsol|e] sys2]; done.
Qed.

Lemma postprocess_time (self : RateState) (wsol : list (list float64))
  (mt : list R) (s s' : store) (l : loc) (r : results) :
  postprocess self wsol mt s = (Ok l, s') →
  s'.2 !! l = Some r → time r = Some mt.
Proof.
  unfold postprocess, mbind, M_bind, lift, setattr, getobj, on_system, get.
  simpl. intros H Hl.
  repeat (case_match; simplify_eq; simpl in * ).
  unfold mret, M_ret in H. simplify_eq. simpl in Hl.
  rewrite lookup_insert_eq in Hl. simplify_eq. simpl.
  rewrite !lookup_insert_eq. done.
Qed.

Lemma postprocess_own_attributes (self self' : RateState)
  (wsol : list (list float64)) (mt : list R) :
  self_results self = self_results self' →
  postprocess self wsol mt = postprocess self' wsol mt.
Proof. intros H. unfold postprocess. by rewrite H. Qed.

(** X22.  The time grid and the loadpoint velocities used during
    solving are attributes of the system passed to [solve].  The
    integrator is run on [system.model_time], so two integrators that
    agree on that grid give the same outcome; that grid is what a
    successful [solve] stores as [results.time]; and the simulator's
    own [model_time] and [loadpoint_velocity] are never read, neither by
    [solve] nor by the step: two simulators that differ only in them
    behave alike. *)
Theorem solve_reads_the_system_grid
  (odeint odeint' : list float64 → list R → gmap string R → integrator)
  (self self' : RateState) (kwargs : gmap string R)
  (system : ExternalSystem) (h : heap) (mt : list R) :
  self_results self = self_results self' →
  model_time system = Some mt →
  (∀ y0 kw, odeint y0 mt kw = odeint' y0 mt kw) →
  solve odeint self kwargs (system, h)
  = solve odeint' self' kwargs (system, h) ∧
  (∀ w t s, _integrationStep self w t s = _integrationStep self' w t s) ∧
  (∀ l sys2 h' r,
     solve odeint self kwargs (system, h) = (Ok l, (sys2, h')) →
     h' !! l = Some r → time r = Some mt).
Proof.
  intros Hres Hmt Hext.
  pose proof (initial_conditions_model_time system) as Hmt'.
  rewrite Hmt in Hmt'.
  split; last split.
  - rewrite !solve_cases.
    destruct (initial_conditions system) as [[w0|e] sys1]; last done.
    simpl in Hmt'. rewrite Hmt'.
    destruct (kwargs !! "args"); first done.
    destruct (mapM as_float w0) as [y0|e]; last done.
    rewrite Hext.
    replace (_integrationStep self) with (_integrationStep self') by done.
    destruct (run_integrator _ _ sys1) as [[wsol|e] sys2]; last done.
    by rewrite (postprocess_own_attributes self self').
  - done.
  - intros l sys2 h' r. rewrite solve_cases.
    destruct (initial_conditions system) as [[w0|e] sys1]; last done.
    simpl in Hmt'. rewrite Hmt'.
    destruct (kwargs !! "args"); first done.
    destruct (mapM as_float w0) as [y0|e]; last done.
    destruct (run_integrator _ _ sys1) as [[wsol|e] sys2']; last done.
    intros Hpost Hl. by eapply (postprocess_time self wsol mt _ (sys2, h')).
Qed.

Lemma solve_reads_the_system_grid_example :
  solve euler sample_simulator ∅ (steady_system, sample_heap)
  = solve euler_on_unit_grid own_grid_simulator ∅
      (steady_system, sample_heap) ∧
  (∀ l sys2 h' r,
     solve euler sample_simulator ∅ (steady_system, sample_heap)
     = (Ok l, (sys2, h')) →
     h' !! l = Some r → time r = Some [0; 1]).
Proof.
  destruct (solve_reads_the_system_grid euler euler_on_unit_grid
              sample_simulator own_grid_simulator ∅ steady_system
              sample_heap [0; 1]) as (Hsame & _ & Htime); try done.
  intros y0 kw. unfold euler_on_unit_grid. by rewrite decide_True.
Defined.

(** ** Reordering *)

Lemma permute_nil {A} (p : list nat) : permute p (@nil A) = [].
Proof. unfold permute. induction p as [|i p IH]; first done. by csimpl. Qed.

Lemma permute_seq {A} (xs pre : list A) :
  permute (seq (length pre) (length xs)) (pre ++ xs) = xs.
Proof.
  unfold permute. revert pre. induction xs as [|x xs IH]; intros pre; first done.
  csimpl. rewrite lookup_app_r by lia.
  replace (length pre - length pre)%nat with 0%nat by lia. csimpl.
  f_equal. specialize (IH (pre ++ [x])).
  rewrite length_app in IH. simpl in IH.
  replace (length pre + 1)%nat with (S (length pre)) in IH by lia.
  by rewrite <- app_assoc in IH.
Qed.

Lemma permute_Permutation {A} (p : list nat) (xs : list A) :
  p ≡ₚ seq 0 (length xs) → permute p xs ≡ₚ xs.
Proof.
  intros Hp. pose proof (permute_seq xs []) as Hseq. simpl in Hseq.
  rewrite <- Hseq at 2. unfold permute. by rewrite Hp.
Qed.

Lemma length_permute {A} (p : list nat) (xs : list A) :
  p ≡ₚ seq 0 (length xs) → length (permute p xs) = length xs.
Proof. intros Hp. by rewrite (permute_Permutation p xs Hp). Qed.

Lemma permute_zip_with {A B C} (f : A → B → C) (p : list nat)
  (xs : list A) (ys : list B) :
  length xs = length ys →
  zip_with f (permute p xs) (permute p ys) = permute p (zip_with f xs ys).
Proof.
  intros Hlen. unfold permute. induction p as [|i p IH]; first done.
  csimpl. rewrite lookup_zip_with.
  destruct (xs !! i) as [x|] eqn:Hx; destruct (ys !! i) as [y|] eqn:Hy;
    csimpl; try by rewrite IH.
  - apply lookup_lt_Some in Hx. apply lookup_ge_None in Hy. lia.
  - apply lookup_lt_Some in Hy. apply lookup_ge_None in Hx. lia.
Qed.

Lemma permute_fmap {A B} (f : A → B) (p : list nat) (xs : list A) :
  f <$> permute p xs = permute p (f <$> xs).
Proof.
  unfold permute. induction p as [|i p IH]; first done.
  csimpl. rewrite list_lookup_fmap.
  destruct (xs !! i); csimpl; by rewrite IH.
Qed.

Lemma Forall_permute {A} (P : A → Prop) (p : list nat) (xs : list A) :
  Forall P xs → Forall P (permute p xs).
Proof.
  intros H. unfold permute. induction p as [|i p IH]; first done.
  csimpl. destruct (xs !! i) as [x|] eqn:Hx; csimpl; last done.
  constructor; last done. by apply (Forall_lookup_1 P xs i x).
Qed.

Lemma Forall2_permute {A B} (P : A → B → Prop) (p : list nat)
  (xs : list A) (ys : list B) :
  Forall2 P xs ys → Forall2 P (permute p xs) (permute p ys).
Proof.
  intros H. unfold permute. induction p as [|i p IH]; first done.
  csimpl.
  destruct (xs !! i) as [x|] eqn:Hx; destruct (ys !! i) as [y|] eqn:Hy;
    csimpl; try done.
  - constructor; last done. by apply (Forall2_lookup_lr P xs ys i x y).
  - apply lookup_lt_Some in Hx. apply lookup_ge_None in Hy.
    apply Forall2_length in H. lia.
  - apply lookup_lt_Some in Hy. apply lookup_ge_None in Hx.
    apply Forall2_length in H. lia.
Qed.

Lemma foldr_Rplus_Permutation (xs ys : list R) :
  xs ≡ₚ ys → foldr Rplus 0 xs = foldr Rplus 0 ys.
Proof.
  induction 1 as [|x xs ys H IH|x y xs|xs ys zs H1 IH1 H2 IH2]; simpl.
  - done.
  - by rewrite IH.
  - lra.
  - by rewrite IH1.
Qed.

Lemma total_contribution_permute (vr : R) (p : list nat)
  (laws : list StateRelation) (thetas : list R) :
  length laws = length thetas → p ≡ₚ seq 0 (length laws) →
  total_contribution vr (permute p laws) (permute p thetas)
  = total_contribution vr laws thetas.
Proof.
  intros Hlen Hp. unfold total_contribution.
  rewrite permute_zip_with by done.
  apply foldr_Rplus_Permutation, permute_Permutation.
  rewrite length_zip_with. by replace (length laws `min` length thetas)%nat
    with (length laws) by lia.
Qed.

(** ** The step on a reordered system *)

Lemma v_contribution_loop_positive (system : ExternalSystem)
  (laws : list StateRelation) (thetas : list R) (vr acc : R) (x : value) :
  vref system = PyFloat vr → 0 < vr → Forall configured laws →
  length thetas = length laws →
  v_contribution_loop (PyFloat acc) (with_states laws thetas) system = Ok x →
  Forall (λ theta, 0 < theta) thetas.
Proof.
  intros Hvr Hpos Hlaws. revert thetas acc.
  induction Hlaws as [|law laws Hlaw Hlaws IH]; intros [|theta thetas] acc Hlen;
    try done.
  simpl in *. intros Hloop.
  destruct (decide (0 < theta)) as [Hth|Hth].
  - constructor; first done.
    rewrite (velocity_component_with_state system law theta vr) in Hloop
      by done.
    simpl in Hloop. eapply IH; [lia | done].
  - exfalso. destruct Hlaw as (bb & d & Hb & Hd & Hdpos).
    unfold velocity_component in Hloop. simpl in Hloop.
    rewrite Hvr, Hd in Hloop. simpl in Hloop.
    rewrite fdiv_fin in Hloop by lra.
    erewrite math_log_nonpos in Hloop; [done | done |].
    intros Hc. apply Hth.
    apply (Rmult_lt_compat_r d) in Hc; last done.
    unfold Rdiv in Hc. rewrite Rmult_assoc, Rinv_l in Hc by lra. nra.
Qed.

Lemma integration_step_success (self : RateState)
  (system system' : ExternalSystem)
  (m : R) (thetas : list R) (dw : list float64) (t : float64)
  (vr m0 aa kk : R) :
  length thetas = length (state_relations system) →
  vref system = PyFloat vr → 0 < vr →
  mu0 system = PyFloat m0 →
  a system = PyFloat aa → aa ≠ 0 →
  k system = PyFloat kk →
  Forall configured (state_relations system) →
  _integrationStep self (finite (m :: thetas)) t system = (Ok dw, system') →
  Forall (λ theta, 0 < theta) thetas ∧
  exp ((m - m0 - total_contribution vr (state_relations system) thetas) / aa)
  <= float_max ∧
  ∃ loadpoint_vel, loadpoint_lookup system t = Ok loadpoint_vel.
Proof.
  intros Hlen Hvr Hvrpos Hm0 Ha Hane Hk Hlaws Hstep.
  assert (Forall (λ theta, 0 < theta) thetas) as Hth.
  { revert Hstep.
    unfold _integrationStep, mbind, M_bind, lift, modify, get. simpl.
    change (Fin m :: finite thetas) with ([Fin m] ++ finite thetas).
    rewrite (assign_states_ok [Fin m] thetas (state_relations system) 0)
      by done.
    unfold velocity_evolution. simpl.
    destruct (v_contribution_loop (PyFloat 0) _ _) as [x|e] eqn:Hloop;
      last done.
    intros _.
    eapply (v_contribution_loop_positive _ (state_relations system)
              thetas vr 0 x); [| | | | exact Hloop]; done. }
  split; first done.
  rewrite (integration_step_cases self system m thetas t vr m0 aa kk)
    in Hstep by done.
  cbv zeta in Hstep. case_decide as Hexp; last done.
  split; first done.
  destruct (loadpoint_lookup system t) as [lvel|e]; last done. eauto.
Qed.

Lemma rate_same_law (vel : R) (laws laws' : list StateRelation)
  (thetas : list R) :
  Forall2 same_law laws laws' →
  zip_with (rate vel) laws thetas = zip_with (rate vel) laws' thetas.
Proof.
  intros H. revert thetas.
  induction H as [|l l' laws laws' (Hc & Hb & Hd) Hrest IH];
    intros [|x thetas]; try done.
  simpl. rewrite IH. unfold rate. by rewrite Hc, Hd.
Qed.

Lemma with_states_same_law (laws laws' : list StateRelation)
  (thetas : list R) :
  Forall2 same_law laws laws' →
  Forall2 same_law (with_states laws thetas) (with_states laws' thetas).
Proof.
  intros H. revert thetas.
  induction H as [|l l' laws laws' Hl Hrest IH]; intros [|x thetas];
    try constructor; try done.
Qed.

Lemma loadpoint_lookup_reordered (p : list nat) (s s' : ExternalSystem)
  (t : float64) :
  reordered p s s' → loadpoint_lookup s' t = loadpoint_lookup s t.
Proof.
  intros (_ & _ & _ & _ & Hmt & Hlv & _). unfold loadpoint_lookup.
  by rewrite Hmt, Hlv.
Qed.

Lemma permute_states_finite (p : list nat) (w : list R) :
  permute_states p (finite w) = finite (permute_states p w).
Proof.
  destruct w as [|m thetas]; first done.
  simpl. unfold finite. csimpl. f_equal. symmetry. apply permute_fmap.
Qed.

Lemma integration_step_reordered (self : RateState) (p : list nat)
  (s s' s1 : ExternalSystem) (m : R) (thetas : list R) (dw : list float64)
  (t : float64) (vr m0 aa kk : R) :
  p ≡ₚ seq 0 (length (state_relations s)) →
  length thetas = length (state_relations s) →
  vref s = PyFloat vr → 0 < vr →
  mu0 s = PyFloat m0 →
  a s = PyFloat aa → aa ≠ 0 →
  k s = PyFloat kk →
  Forall configured (state_relations s) →
  reordered p s s' →
  _integrationStep self (finite (m :: thetas)) t s = (Ok dw, s1) →
  ∃ (s1' : ExternalSystem) (rates : list R),
    dw = finite rates ∧
    _integrationStep self (permute_states p (finite (m :: thetas))) t s'
    = (Ok (permute_states p dw), s1') ∧
    reordered p s1 s1' ∧
    length dw = S (length (state_relations s)).
Proof.
  intros Hp Hlen Hvr Hvrpos Hm0 Ha Hane Hk Hlaws Hre Hstep.
  destruct (integration_step_success self s s1 m thetas dw t vr m0 aa kk)
    as (Hth & Hexp & lvel & Hlook); try done.
  rewrite (integration_step_cases self s m thetas t vr m0 aa kk) in Hstep
    by done.
  cbv zeta in Hstep. rewrite decide_True in Hstep by done.
  rewrite Hlook in Hstep. injection Hstep as <- <-.
  pose proof Hre as (Hm0' & Ha' & Hk' & Hvr' & Hmt' & Hlv' & Hlaws').
  set (laws := state_relations s) in *.
  set (laws' := state_relations s') in *.
  assert (length (permute p laws) = length laws) as Hlp
    by (by apply length_permute).
  assert (length (permute p thetas) = length thetas) as Htp
    by (apply length_permute; by rewrite Hlen).
  assert (length laws' = length laws) as Hl'
    by (apply Forall2_length in Hlaws'; lia).
  assert (total_contribution vr laws' (permute p thetas)
          = total_contribution vr laws thetas) as Htot.
  { rewrite <- (total_contribution_same_law vr (permute p laws) laws')
      by done.
    rewrite total_contribution_permute; done. }
  assert (constitutive_velocity vr m m0 aa laws' (permute p thetas)
          = constitutive_velocity vr m m0 aa laws thetas) as Hvel.
  { unfold constitutive_velocity. by rewrite Htot. }
  eexists.
  exists (kk * (lvel - constitutive_velocity vr m m0 aa laws thetas)
          :: zip_with (rate (constitutive_velocity vr m m0 aa laws thetas))
               laws thetas).
  split; first done. split.
  - change (Fin (kk * (lvel - constitutive_velocity vr m m0 aa laws thetas))
            :: finite (zip_with
                         (rate (constitutive_velocity vr m m0 aa laws thetas))
                         laws thetas))
      with (finite (kk * (lvel - constitutive_velocity vr m m0 aa laws thetas)
                    :: zip_with
                         (rate (constitutive_velocity vr m m0 aa laws thetas))
                         laws thetas)).
    rewrite !permute_states_finite. cbn [permute_states].
    rewrite (integration_step_cases self s' m (permute p thetas) t
               vr m0 aa kk); try done; try congruence.
    + cbv zeta. fold laws'. rewrite Htot. rewrite decide_True by done.
      rewrite (loadpoint_lookup_reordered p s s') by done. rewrite Hlook.
      rewrite Hvel. do 4 f_equal.
      rewrite <- (rate_same_law _ (permute p laws) laws') by done.
      by rewrite permute_zip_with.
    + fold laws'. lia.
    + eapply configured_same_law; first done. by apply Forall_permute.
    + by apply Forall_permute.
  - split; last by (unfold finite; simpl; rewrite length_fmap,
                      length_zip_with; fold laws; lia).
    repeat split; try done. simpl. fold laws laws'.
    unfold with_states at 1. rewrite <- permute_zip_with by done.
    by apply with_states_same_law.
Qed.

(** ** A run of the integrator on a reordered system *)

Lemma run_integrator_reordered (self : RateState) (p : list nat) (n : nat)
  (prog prog' : integrator) (vr m0 aa kk : R) :
  equivariant p n prog prog' →
  p ≡ₚ seq 0 n → 0 < vr → aa ≠ 0 →
  ∀ (s s' s2 : ExternalSystem) (wsol : list (list float64)),
    length (state_relations s) = n →
    vref s = PyFloat vr → mu0 s = PyFloat m0 →
    a s = PyFloat aa → k s = PyFloat kk →
    Forall configured (state_relations s) →
    reordered p s s' →
    run_integrator (_integrationStep self) prog s = (Ok wsol, s2) →
    ∃ s2',
      run_integrator (_integrationStep self) prog' s'
      = (Ok (permute_states p <$> wsol), s2') ∧
      reordered p s2 s2'.
Proof.
  intros Heq Hp Hvrpos Hane.
  induction Heq as [wsol0|e|w t next next' Hw Hnext IH];
    intros s s' s2 wsol Hn Hvr Hm0 Ha Hk Hlaws Hre Hrun.
  - simpl in *. unfold mret, M_ret in *. simplify_eq. eauto.
  - done.
  - destruct w as [|m thetas]; first done.
    simpl in Hrun. unfold mbind, M_bind in Hrun.
    change (Fin m :: finite thetas) with (finite (m :: thetas)) in Hrun.
    destruct (_integrationStep self (finite (m :: thetas)) t s)
      as [[dw|e] s1] eqn:Hstep; last done.
    pose proof (integration_step_same_parameters self
                  (finite (m :: thetas)) t s) as Hsame.
    rewrite Hstep in Hsame. simpl in Hsame.
    destruct Hsame as (Hm0' & Ha' & Hk' & Hvr' & _ & _ & Hlaws').
    destruct (integration_step_reordered self p s s' s1 m thetas dw t
                vr m0 aa kk) as (s1' & rates & -> & Hstep' & Hre1 & Hdw);
      try done.
    { by rewrite Hn. }
    { simpl in Hw. lia. }
    rewrite Hn in Hdw. unfold finite in Hdw. rewrite length_fmap in Hdw.
    destruct (IH rates Hdw s1 s1' s2 wsol) as (s2' & Hrun' & Hre2);
      try done; try congruence.
    { apply Forall2_length in Hlaws'. lia. }
    { by eapply configured_same_law. }
    exists s2'. split; last done.
    change (run_integrator (_integrationStep self)
              (Rhs (permute_states p (finite (m :: thetas))) t next') s')
      with (mbind (M := M ExternalSystem)
              (λ dw', run_integrator (_integrationStep self) (next' dw'))
              (_integrationStep self
                 (permute_states p (finite (m :: thetas))) t)
              s').
    by erewrite bind_ok.
Qed.

Lemma euler_step_finite (w dw : list R) (dt : R) :
  zip_with (λ x d, fadd x (fmul (Fin dt) d)) (finite w) (finite dw)
  = finite (zip_with (λ x d, x + dt * d) w dw).
Proof.
  revert dw. induction w as [|x w IH]; intros [|d dw]; try done.
  unfold finite in *. csimpl. by rewrite IH.
Qed.

(** The forward Euler method treats the state coordinates alike. *)
Lemma euler_from_equivariant (p : list nat) (n : nat) (ts : list R) :
  p ≡ₚ seq 0 n →
  ∀ (w : list R) (t : R) (rows : list (list float64)),
    length w = S n →
    equivariant p n (euler_from (finite w) t ts rows)
      (euler_from (permute_states p (finite w)) t ts
         (permute_states p <$> rows)).
Proof.
  intros Hp. induction ts as [|t' ts IH]; intros w t rows Hw.
  - simpl.
    replace ((permute_states p <$> rows) ++ [permute_states p (finite w)])
      with (permute_states p <$> (rows ++ [finite w]))
      by (by rewrite fmap_app).
    constructor.
  - simpl. constructor; first done.
    intros dw Hdw.
    rewrite !permute_states_finite, !euler_step_finite.
    destruct w as [|m thetas]; first done.
    destruct dw as [|d ds]; first done.
    simpl in Hw, Hdw.
    replace (zip_with (λ x d0 : R, x + (t' - t) * d0)
               (permute_states p (m :: thetas)) (permute_states p (d :: ds)))
      with (permute_states p
              (zip_with (λ x d0 : R, x + (t' - t) * d0) (m :: thetas)
                 (d :: ds))).
    + replace ((permute_states p <$> rows)
               ++ [finite (permute_states p (m :: thetas))])
        with (permute_states p <$> (rows ++ [finite (m :: thetas)]))
        by (by rewrite fmap_app, <- permute_states_finite).
      rewrite <- permute_states_finite.
      apply IH. simpl. rewrite length_zip_with. lia.
    + simpl. f_equal. rewrite permute_zip_with; [done | lia].
Qed.

Lemma euler_equivariant (p : list nat) (n : nat) (y0 ts : list R)
  (kwargs : gmap string R) :
  p ≡ₚ seq 0 n → length y0 = S n →
  equivariant p n (euler (finite y0) ts kwargs)
    (euler (permute_states p (finite y0)) ts kwargs).
Proof.
  intros Hp Hy0. destruct ts as [|t ts]; simpl.
  - constructor.
  - by apply (euler_from_equivariant p n ts Hp y0 t []).
Qed.

(** ** [solve] on a reordered system *)

Lemma same_law_with_states (laws : list StateRelation) (thetas : list R) :
  length thetas = length laws →
  Forall2 same_law laws (with_states laws thetas).
Proof.
  revert thetas. induction laws as [|law laws IH]; intros [|x thetas] Hlen;
    try done.
  simpl in *. apply Forall2_cons_2; [done | apply IH; lia].
Qed.

Lemma same_law_with_initial_states (laws : list StateRelation)
  (thetas : list R) :
  length thetas = length laws →
  Forall2 same_law laws (with_initial_states laws thetas).
Proof.
  revert thetas. induction laws as [|law laws IH]; intros [|x thetas] Hlen;
    try done.
  simpl in *. apply Forall2_cons_2; [done | apply IH; lia].
Qed.

Lemma permute_states_head {A} (p : list nat) (row : list A) :
  permute_states p row !! 0%nat = row !! 0%nat.
Proof. by destruct row. Qed.

Lemma permute_states_tail {A} (p : list nat) (row : list A) :
  drop 1 (permute_states p row) = permute p (drop 1 row).
Proof.
  destruct row as [|m thetas]; simpl; last by rewrite !drop_0.
  by rewrite permute_nil.
Qed.

Lemma permute_states_finite_matrix (p : list nat) (wsol : list (list R)) :
  permute_states p <$> finite_matrix wsol
  = finite_matrix (permute_states p <$> wsol).
Proof.
  unfold finite_matrix. rewrite <- !list_fmap_compose.
  apply fmap_ext_Forall, Forall_forall. intros row _. simpl.
  apply permute_states_finite.
Qed.

Lemma solve_reordered_ok
  (odeint : list float64 → list R → gmap string R → integrator)
  (self : RateState) (kwargs : gmap string R)
  (system sys2 : ExternalSystem) (h : heap) (p : list nat)
  (vr m0 aa kk : R) (mt lv : list R) (wsol : list (list R)) :
  let laws := state_relations system in
  let n := length laws in
  let y0 := finite (m0 :: (steady_value vr <$> laws)) in
  kwargs !! "args" = None →
  p ≡ₚ seq 0 n →
  vref system = PyFloat vr → 0 < vr →
  mu0 system = PyFloat m0 →
  a system = PyFloat aa → aa ≠ 0 →
  k system = PyFloat kk →
  Forall configured laws →
  model_time system = Some mt → loadpoint_velocity system = Some lv →
  length mt = length lv →
  (∀ kw, equivariant p n (odeint y0 mt kw)
           (odeint (permute_states p y0) mt kw)) →
  run_integrator (_integrationStep self)
    (odeint y0 mt (kwargs ∪ default_kwargs))
    (set_state_relations
       (with_initial_states laws (steady_value vr <$> laws)) system)
  = (Ok (finite_matrix wsol), sys2) →
  Forall (λ row, length row = S n ∧ Forall (λ x, 0 < x) (drop 1 row)) wsol →
  ∃ sys2',
    solve odeint self kwargs (permuted_system p system, h)
    = (Ok (self_results self),
       (sys2',
        <[self_results self :=
            solved vr m0 aa (permute p laws) mt lv
              (permute_states p <$> wsol)]> h)).
Proof.
  intros laws n y0 Hargs Hp Hvr Hvrpos Hm0 Ha Hane Hk Hlaws Hmt Hlv Hlen Heq
    Hrun Hwsol.
  assert (length (permute p laws) = n) as Hlp by (by apply length_permute).
  destruct (run_integrator_reordered self p n _ _ vr m0 aa kk
              (Heq (kwargs ∪ default_kwargs)) Hp Hvrpos Hane
              (set_state_relations
                 (with_initial_states laws (steady_value vr <$> laws))
                 system)
              (set_state_relations
                 (with_initial_states (permute p laws)
                    (steady_value vr <$> permute p laws))
                 (permuted_system p system))
              sys2 (finite_matrix wsol)) as (sys2' & Hrun' & _); try done.
  { simpl. unfold with_initial_states.
    rewrite length_zip_with, length_fmap. fold laws. fold n. lia. }
  { simpl. eapply configured_same_law; last done.
    apply same_law_with_initial_states. by rewrite length_fmap. }
  { repeat split; try done. simpl.
    rewrite permute_fmap. unfold with_initial_states.
    rewrite permute_zip_with by (by rewrite length_fmap).
    apply same_laws_refl. }
  exists sys2'.
  apply (solve_ok odeint self kwargs (permuted_system p system) sys2' h
           vr m0 aa mt lv); try done.
  - simpl. by apply Forall_permute.
  - rewrite <- permute_states_finite_matrix.
    replace (permute_states p y0)
      with (finite (m0 :: (steady_value vr <$> permute p laws))) in Hrun'.
    + exact Hrun'.
    + unfold y0. rewrite permute_states_finite. simpl.
      by rewrite permute_fmap.
  - simpl. rewrite Forall_fmap. eapply Forall_impl; first done.
    intros row [Hrow Hpos]. simpl. rewrite permute_states_tail. split.
    + destruct row as [|m thetas]; first done.
      simpl in Hrow.
      change (S (length (permute p thetas)) = S (length (permute p laws))).
      rewrite Hlp. f_equal. rewrite length_permute; first lia.
      replace (length thetas) with n by lia. done.
    + by apply Forall_permute.
Qed.

(** * Further properties of the code *)

(** X1.  A run of the integrator changes nothing but the scratch
    attributes: whatever points the integrator asks for, and whether
    or not a step raises, the system afterwards has the same [mu0],
    [a], [k], [vref], [model_time] and [loadpoint_velocity], and every
    law has kept its class, [b] and [Dc]. *)
Theorem integrator_run_keeps_parameters (self : RateState)
  (prog : integrator) (w : list float64) (t : float64)
  (system : ExternalSystem) :
  same_parameters system
    (run_integrator (_integrationStep self) prog system).2 ∧
  same_parameters system (_integrationStep self w t system).2.
Proof.
  split.
  - apply run_integrator_same_parameters.
  - apply integration_step_same_parameters.
Qed.

(** ** The step does not read the scratch attributes *)

Lemma set_state_same_law (x : value) (l l' : StateRelation) :
  same_law l l' → set_state x l = set_state x l'.
Proof.
  destruct l, l'. intros (Hc & Hb & Hd). simpl in *. by subst.
Qed.

Lemma assign_states_same (w : list float64)
  (laws laws' : list StateRelation) :
  Forall2 same_law laws laws' →
  ∀ i,
    (assign_states w i laws).1 = (assign_states w i laws').1 ∧
    ((assign_states w i laws).1 = Ok tt →
     (assign_states w i laws).2 = (assign_states w i laws').2).
Proof.
  induction 1 as [|l l' laws laws' Hl Hrest IH]; intros i; first done.
  simpl. destruct (item w (i + 1)) as [x|e]; last done.
  destruct (IH (S i)) as [H1 H2].
  destruct (assign_states w (S i) laws) as [r1 rest1].
  destruct (assign_states w (S i) laws') as [r2 rest2].
  simpl in *. split; first done.
  intros Hok. rewrite (H2 Hok). by rewrite (set_state_same_law _ l l').
Qed.

Lemma velocity_component_vref (law : StateRelation) (s s' : ExternalSystem) :
  vref s = vref s' → velocity_component law s = velocity_component law s'.
Proof. intros H. unfold velocity_component. by rewrite H. Qed.

Lemma v_contribution_loop_vref (laws : list StateRelation)
  (s s' : ExternalSystem) (acc : value) :
  vref s = vref s' →
  v_contribution_loop acc laws s = v_contribution_loop acc laws s'.
Proof.
  intros H. revert acc. induction laws as [|law laws IH]; intros acc;
    first done.
  simpl. rewrite (velocity_component_vref law s s' H).
  destruct (velocity_component law s'); simpl; last done.
  destruct (py_add acc x); simpl; [apply IH | done].
Qed.

(** Two systems that differ at most in [v]. *)
Lemma velocity_evolution_same (s s' : ExternalSystem) :
  set_v PyNone s = set_v PyNone s' →
  (velocity_evolution s).1 = (velocity_evolution s').1 ∧
  ((velocity_evolution s).1 = Ok tt →
   (velocity_evolution s).2 = (velocity_evolution s').2).
Proof.
  intros H. unfold velocity_evolution.
  assert (vref s = vref s' ∧ state_relations s = state_relations s' ∧
          mu s = mu s' ∧ mu0 s = mu0 s' ∧ a s = a s') as (Hv & Hl & Hm & H0 & Ha).
  { destruct s, s'. simpl in *. by simplify_eq. }
  rewrite (v_contribution_loop_vref _ s s' _ Hv), Hl, Hm, H0, Ha, Hv.
  destruct (_ ← v_contribution_loop (PyFloat 0) (state_relations s') s'; _)
    as [x|e]; simpl; last done.
  split; first done. intros _.
  destruct s, s'. simpl in *. by simplify_eq.
Qed.

Lemma integration_step_same_result (self : RateState) (w : list float64)
  (t : float64) (s s' : ExternalSystem) :
  same_parameters s s' →
  (_integrationStep self w t s).1 = (_integrationStep self w t s').1 ∧
  (∀ dw, (_integrationStep self w t s).1 = Ok dw →
         (_integrationStep self w t s).2 = (_integrationStep self w t s').2).
Proof.
  intros (Hm0 & Ha & Hk & Hvr & Hmt & Hlv & Hlaws).
  unfold _integrationStep, mbind, M_bind, lift, modify, get.
  destruct (item w 0) as [m|e]; simpl; last done.
  destruct (assign_states_same w _ _ Hlaws 0%nat) as [H1 H2].
  destruct (assign_states w 0 (state_relations s)) as [r1 l1].
  destruct (assign_states w 0 (state_relations s')) as [r2 l2].
  simpl in H1, H2. subst r2. destruct r1 as [[]|e]; last done.
  rewrite <- (H2 eq_refl). clear H2.
  set (s1 := set_state_relations l1 (set_mu (NpFloat m) s)).
  set (s1' := set_state_relations l1 (set_mu (NpFloat m) s')).
  assert (set_v PyNone s1 = set_v PyNone s1') as Hs1.
  { unfold s1, s1', set_v, set_state_relations, set_mu. simpl.
    by rewrite Hm0, Ha, Hk, Hvr, Hmt, Hlv. }
  destruct (velocity_evolution_same s1 s1' Hs1) as [H3 H4].
  destruct (velocity_evolution s1) as [r3 s2].
  destruct (velocity_evolution s1') as [r4 s2'].
  simpl in H3, H4. subst r4. destruct r3 as [[]|e]; last done.
  rewrite <- (H4 eq_refl). done.
Qed.


(** X2.  The step is a function of the parameters, of [w] and of [t]
    only: on two systems that differ at most in the scratch attributes
    ([mu], [v] and the laws' [state]) it returns the same rates or
    raises the same exception, and when it returns it leaves the two
    systems equal.  The integrator may therefore call it at any point,
    in any order. *)
Theorem integration_step_ignores_scratch (self : RateState)
  (w : list float64) (t : float64) (s s' : ExternalSystem) :
  same_parameters s s' →
  (_integrationStep self w t s).1 = (_integrationStep self w t s').1 ∧
  (∀ dw, (_integrationStep self w t s).1 = Ok dw →
         (_integrationStep self w t s).2 = (_integrationStep self w t s').2).
Proof. apply integration_step_same_result. Qed.

Lemma integration_step_ignores_scratch_example :
  (_integrationStep sample_simulator (finite [0.6; 10]) 0 steady_system).1
  = (_integrationStep sample_simulator (finite [0.6; 10]) 0
       (set_v (PyFloat 7) (set_mu (NpFloat 3) steady_system))).1.
Proof.
  apply (integration_step_ignores_scratch sample_simulator
           (finite [0.6; 10]) 0 steady_system
           (set_v (PyFloat 7) (set_mu (NpFloat 3) steady_system))).
  repeat split. apply same_laws_refl.
Defined.

(** X3.  The lookup has no fallback.  It raises [IndexError] when the
    loadpoint velocities and the time grid differ in length, and also
    when no grid time is [<= t] (a query before the first sample, or an
    empty grid): the selection is empty and has no last element. *)
Theorem loadpoint_lookup_out_of_domain (system : ExternalSystem)
  (mt lv : list R) (t : R) :
  model_time system = Some mt → loadpoint_velocity system = Some lv →
  (length lv ≠ length mt → loadpoint_lookup system t = Raise IndexError) ∧
  (length lv = length mt → Forall (λ x, t < x) mt →
   loadpoint_lookup system t = Raise IndexError).
Proof.
  intros Hmt Hlv. unfold loadpoint_lookup. rewrite Hmt, Hlv. simpl.
  unfold bool_index, mask_le. rewrite length_fmap. split.
  - intros Hne. by rewrite decide_False.
  - intros Hlen Hall. rewrite decide_True by done. simpl.
    rewrite compress_all_false; first done.
    intros j Hj. apply mask_le_lookup in Hj as (tj & Htj & Hle).
    rewrite Forall_lookup in Hall. specialize (Hall j tj Htj). simpl in Hall.
    lra.
Qed.

Lemma loadpoint_lookup_out_of_domain_example :
  loadpoint_lookup hold_system (-1) = Raise IndexError.
Proof.
  apply (loadpoint_lookup_out_of_domain hold_system [0; 1; 2; 3]
           [5; 5; 9; 9] (-1)); try done.
  repeat constructor; lra.
Defined.

(** ** The initial conditions as a steady state *)

Lemma steady_value_pos (vr : R) (law : StateRelation) :
  0 < vr → configured law → 0 < steady_value vr law.
Proof.
  intros Hvr (bb & d & Hb & Hd & Hdpos). unfold steady_value. rewrite Hd.
  simpl. destruct (cls law); apply Rdiv_lt_0_compat; lra.
Qed.

Lemma steady_values_pos (vr : R) (laws : list StateRelation) :
  0 < vr → Forall configured laws →
  Forall (λ theta, 0 < theta) (steady_value vr <$> laws).
Proof.
  intros Hvr Hlaws. rewrite Forall_fmap.
  eapply Forall_impl; first done. intros law Hlaw. simpl.
  by apply steady_value_pos.
Qed.

Lemma steady_contribution (vr : R) (law : StateRelation) :
  0 < vr → configured law → cls law ≠ PrzState →
  contribution vr law (steady_value vr law) = 0.
Proof.
  intros Hvr (bb & d & Hb & Hd & Hdpos) Hcls.
  unfold contribution, steady_value. rewrite Hb, Hd. simpl.
  replace (vr * match cls law with
                | PrzState => 2 * d / vr
                | _ => d / vr
                end / d) with 1.
  - rewrite ln_1. lra.
  - destruct (cls law); try done; field; lra.
Qed.

Lemma steady_total_contribution (vr : R) (laws : list StateRelation) :
  0 < vr → Forall configured laws →
  Forall (λ law, cls law ≠ PrzState) laws →
  total_contribution vr laws (steady_value vr <$> laws) = 0.
Proof.
  intros Hvr Hlaws Hcls. unfold total_contribution.
  induction Hlaws as [|law laws Hlaw Hlaws IH]; first done.
  inversion Hcls as [|? ? Hc Hcls']; subst. csimpl.
  rewrite IH by done. rewrite steady_contribution by done. lra.
Qed.

Lemma steady_rates (vr : R) (laws : list StateRelation) :
  0 < vr → Forall configured laws →
  Forall (λ law, cls law ≠ PrzState) laws →
  zip_with (rate vr) laws (steady_value vr <$> laws) = (λ _, 0) <$> laws.
Proof.
  intros Hvr Hlaws Hcls.
  induction Hlaws as [|law laws (bb & d & Hb & Hd & Hdpos) Hlaws IH];
    first done.
  inversion Hcls as [|? ? Hc Hcls']; subst. csimpl.
  rewrite IH by done. f_equal.
  unfold rate, steady_value. rewrite Hd. simpl.
  destruct (cls law); try done.
  - field. lra.
  - replace (vr * (d / vr) / d) with 1 by (field; lra). rewrite ln_1. lra.
Qed.

Lemma integration_step_steady (self : RateState) (system : ExternalSystem)
  (t vr m0 aa kk loadpoint_vel : R) :
  let laws := state_relations system in
  let steady := steady_value vr <$> laws in
  let sys1 := set_state_relations (with_initial_states laws steady) system in
  vref system = PyFloat vr → 0 < vr →
  mu0 system = PyFloat m0 →
  a system = PyFloat aa → aa ≠ 0 →
  k system = PyFloat kk →
  Forall configured laws →
  Forall (λ law, cls law ≠ PrzState) laws →
  loadpoint_lookup system t = Ok loadpoint_vel →
  ∃ sys2,
    _integrationStep self (finite (m0 :: steady)) t sys1
    = (Ok (finite (kk * (loadpoint_vel - vr) :: ((λ _, 0) <$> laws))), sys2) ∧
    v sys2 = PyFloat vr.
Proof.
  intros laws steady sys1 Hvr Hvrpos Hm0 Ha Hane Hk Hlaws Hcls Hlook.
  assert (length steady = length laws) as Hlen
    by (unfold steady; by rewrite length_fmap).
  assert (Forall2 same_law laws (with_initial_states laws steady)) as Hsame
    by (by apply same_law_with_initial_states).
  assert (total_contribution vr (with_initial_states laws steady) steady = 0)
    as Htot.
  { rewrite <- (total_contribution_same_law vr laws) by done.
    unfold steady. by rewrite steady_total_contribution. }
  assert ((m0 - m0 - 0) / aa = 0) as Hq by (field; done).
  assert (constitutive_velocity vr m0 m0 aa
            (with_initial_states laws steady) steady = vr) as Hvel.
  { unfold constitutive_velocity. rewrite Htot, Hq, exp_0. lra. }
  eexists.
  rewrite (integration_step_ok self sys1 m0 steady t vr m0 aa kk
             loadpoint_vel); try done.
  - simpl. rewrite Hvel.
    rewrite <- (rate_same_law vr laws) by done.
    rewrite steady_rates by done. split; first reflexivity. done.
  - simpl. unfold with_initial_states. rewrite length_zip_with. lia.
  - simpl. by eapply configured_same_law.
  - by apply steady_values_pos.
  - simpl. rewrite Htot, Hq, exp_0. apply float_max_ge_1.
Qed.

(** X4.  With Dieterich and Ruina laws the initial conditions built by
    [solve] are a steady state: at the initial vector
    [[mu0, Dc_1 / vref, ...]] the step computes [v = vref], every state
    rate is [0] and the friction rate is [k * (loadpoint_vel - vref)],
    which is [0] too when the loadpoint moves at the reference
    velocity. *)
Theorem initial_conditions_are_steady (self : RateState)
  (system : ExternalSystem) (t vr m0 aa kk loadpoint_vel : R) :
  vref system = PyFloat vr → 0 < vr →
  mu0 system = PyFloat m0 →
  a system = PyFloat aa → aa ≠ 0 →
  k system = PyFloat kk →
  Forall configured (state_relations system) →
  Forall (λ law, cls law ≠ PrzState) (state_relations system) →
  loadpoint_lookup system t = Ok loadpoint_vel →
  ∃ (w0 : list R) sys1 sys2,
    initial_conditions system = (Ok ((λ r : R, PyFloat r) <$> w0), sys1) ∧
    _integrationStep self (finite w0) t sys1
    = (Ok (finite (kk * (loadpoint_vel - vr)
                   :: ((λ _, 0) <$> state_relations system))), sys2) ∧
    v sys2 = PyFloat vr.
Proof.
  intros Hvr Hvrpos Hm0 Ha Hane Hk Hlaws Hcls Hlook.
  destruct (integration_step_steady self system t vr m0 aa kk
              loadpoint_vel) as (sys2 & Hstep & Hv); try done.
  eexists. eexists. exists sys2. split; last split.
  - apply (initial_conditions_ok system vr m0); try done. lra.
  - exact Hstep.
  - done.
Qed.

Lemma two_law_system_configured :
  Forall configured (state_relations two_law_system) ∧
  Forall (λ law, cls law ≠ PrzState) (state_relations two_law_system).
Proof.
  split.
  - repeat constructor.
    + exists 0.01, 10. repeat split; lra.
    + exists 0.001, 5. repeat split; lra.
  - repeat constructor; done.
Qed.

Lemma two_law_system_lookup : loadpoint_lookup two_law_system 0 = Ok 1.
Proof.
  apply (loadpoint_lookup_at _ [0; 1] [1; 1] 0 0%nat 0 1); try done; try lra.
  intros [|[|j]] tj Hj Htj; simpl in Htj; try lia; simplify_eq; lra.
Qed.

Lemma initial_conditions_are_steady_example :
  ∃ (w0 : list R) sys1 sys2,
    initial_conditions two_law_system
    = (Ok ((λ r : R, PyFloat r) <$> w0), sys1) ∧
    _integrationStep sample_simulator (finite w0) 0 sys1
    = (Ok (finite [1e-3 * (1 - 1); 0; 0]), sys2) ∧
    v sys2 = PyFloat 1.
Proof.
  destruct two_law_system_configured as [Hc Hn].
  apply (initial_conditions_are_steady sample_simulator two_law_system
           0 1 0.6 0.005 1e-3 1); try done; try lra.
  apply two_law_system_lookup.
Defined.



(** ** The displacement grows with the time *)

Lemma ediff1d_nonneg (mt : list R) :
  increasing mt → Forall (λ x, 0 <= x) (ediff1d mt).
Proof.
  induction mt as [|x [|y mt] IH]; intros Hinc; try constructor.
  - specialize (Hinc 0%nat 1%nat x y). simpl in Hinc.
    assert (x < y) by (apply Hinc; [lia | done | done]). lra.
  - apply IH. intros i j p q Hij Hp Hq.
    apply (Hinc (S i) (S j) p q); [lia | done | done].
Qed.

Lemma products_nonneg (xs ys : list R) :
  Forall (λ x, 0 <= x) xs → Forall (λ x, 0 <= x) ys →
  Forall (λ x, 0 <= x) (zip_with Rmult xs ys).
Proof.
  intros Hxs. revert ys. induction Hxs as [|x xs Hx Hxs IH];
    intros ys Hys; first done.
  destruct Hys as [|y ys Hy Hys]; first done.
  simpl. constructor; [nra | by apply IH].
Qed.

Lemma length_cumsum_from (acc : R) (xs : list R) :
  length (cumsum_from acc xs) = length xs.
Proof.
  revert acc. induction xs as [|x xs IH]; intros acc; first done.
  simpl. by rewrite IH.
Qed.

Lemma cumsum_from_nondecreasing (xs : list R) :
  Forall (λ x, 0 <= x) xs →
  ∀ (acc : R) (j : nat) (d d' : R),
    (acc :: cumsum_from acc xs) !! j = Some d →
    (acc :: cumsum_from acc xs) !! S j = Some d' →
    d <= d'.
Proof.
  induction 1 as [|x xs Hx Hxs IH]; intros acc j d d' Hd Hd'.
  - by destruct j.
  - destruct j as [|j].
    + simpl in *. simplify_eq. lra.
    + apply (IH (acc + x) j d d'); done.
Qed.

(** X6.  With a time grid and loadpoint velocities of equal length,
    [solve]'s displacement has one entry per grid time (a single [0]
    for an empty grid), starts at [0], and on an increasing grid with
    non-negative loadpoint velocities it never decreases. *)
Theorem displacement_nondecreasing (system : ExternalSystem)
  (mt lv : list R) :
  model_time system = Some mt → loadpoint_velocity system = Some lv →
  length mt = length lv →
  ∃ disp,
    displacement_of system = Ok disp ∧
    length disp = S (length mt - 1) ∧
    disp !! 0%nat = Some 0 ∧
    (increasing mt → Forall (λ x, 0 <= x) lv →
     ∀ j d d', disp !! j = Some d → disp !! S j = Some d' → d <= d').
Proof.
  intros Hmt Hlv Hlen. exists (displacement_formula mt lv).
  split; first by apply displacement_of_ok.
  unfold displacement_formula, cumsum. repeat split.
  - simpl. rewrite length_cumsum_from, length_zip_with, length_ediff1d.
    unfold all_but_last. rewrite length_take. lia.
  - intros Hinc Hpos j d d'.
    apply cumsum_from_nondecreasing, products_nonneg.
    + unfold all_but_last. by apply Forall_take.
    + by apply ediff1d_nonneg.
Qed.

Lemma displacement_nondecreasing_example :
  ∃ disp,
    displacement_of hold_system = Ok disp ∧
    length disp = 4%nat ∧
    disp !! 0%nat = Some 0 ∧
    (∀ j d d', disp !! j = Some d → disp !! S j = Some d' → d <= d').
Proof.
  destruct (displacement_nondecreasing hold_system [0; 1; 2; 3]
              [5; 5; 9; 9]) as (disp & Hdisp & Hlen & H0 & Hmono);
    try done.
  exists disp. repeat split; try done.
  apply Hmono.
  - intros [|[|[|[|i]]]] [|[|[|[|j]]]] x y Hij Hx Hy; simpl in *;
      simplify_eq; try lia; lra.
  - repeat constructor; lra.
Defined.

(** ** Reordering the state relations *)

Lemma reordered_permuted_system (p : list nat) (system : ExternalSystem) :
  reordered p system (permuted_system p system).
Proof. repeat split. simpl. apply same_laws_refl. Qed.

(** X7.  The step treats the laws alike.  When it returns [dw] on the
    vector [[mu, theta_1, ...]], then on the system with its laws
    reordered and the vector reordered the same way it returns the same
    friction rate followed by the state rates of [dw], reordered. *)
Theorem integration_step_reordering (self : RateState) (p : list nat)
  (system s1 : ExternalSystem) (m : R) (thetas : list R)
  (dw : list float64) (t : R) (vr m0 aa kk : R) :
  p ≡ₚ seq 0 (length (state_relations system)) →
  length thetas = length (state_relations system) →
  vref system = PyFloat vr → 0 < vr →
  mu0 system = PyFloat m0 →
  a system = PyFloat aa → aa ≠ 0 →
  k system = PyFloat kk →
  Forall configured (state_relations system) →
  _integrationStep self (finite (m :: thetas)) t system = (Ok dw, s1) →
  ∃ s1' (dmu_dt : R) (rates : list R),
    dw = finite (dmu_dt :: rates) ∧
    _integrationStep self (finite (m :: permute p thetas)) t
      (permuted_system p system)
    = (Ok (finite (dmu_dt :: permute p rates)), s1').
Proof.
  intros Hp Hlen Hvr Hvrpos Hm0 Ha Hane Hk Hlaws Hstep.
  destruct (integration_step_reordered self p system
              (permuted_system p system) s1 m thetas dw t vr m0 aa kk)
    as (s1' & rates & Hdw & Hstep' & _ & Hlen'); try done.
  { apply reordered_permuted_system. }
  subst dw. destruct rates as [|dmu_dt rates]; first done.
  exists s1', dmu_dt, rates. split; first done.
  rewrite !permute_states_finite in Hstep'. exact Hstep'.
Qed.

Lemma swap_is_permutation : [1%nat; 0%nat] ≡ₚ seq 0 2.
Proof. apply perm_swap. Qed.

Lemma two_law_system_overflow :
  exp ((0.6 - 0.6
        - total_contribution 1 (state_relations two_law_system) [10; 5])
       / 0.005) <= float_max.
Proof.
  unfold total_contribution, contribution. simpl.
  replace (1 * 10 / 10) with 1 by lra.
  replace (1 * 5 / 5) with 1 by lra.
  rewrite ln_1.
  replace ((0.6 - 0.6 - (0.01 * 0 + (0.001 * 0 + 0))) / 0.005) with 0
    by lra.
  rewrite exp_0. apply float_max_ge_1.
Qed.

Lemma integration_step_reordering_example :
  ∃ s1 s1' (dmu_dt : R) (rates : list R),
    _integrationStep sample_simulator (finite [0.6; 10; 5]) 0 two_law_system
    = (Ok (finite (dmu_dt :: rates)), s1) ∧
    _integrationStep sample_simulator
      (finite (0.6 :: permute [1%nat; 0%nat] [10; 5]))
      0 (permuted_system [1%nat; 0%nat] two_law_system)
    = (Ok (finite (dmu_dt :: permute [1%nat; 0%nat] rates)), s1').
Proof.
  destruct two_law_system_configured as [Hc _].
  pose proof (integration_step_ok sample_simulator two_law_system 0.6
                [10; 5] 0 1 0.6 0.005 1e-3 1) as Hstep.
  destruct (integration_step_reordering sample_simulator [1%nat; 0%nat]
              two_law_system _ 0.6 [10; 5] _ 0 1 0.6 0.005 1e-3
              swap_is_permutation eq_refl eq_refl ltac:(lra) eq_refl eq_refl
              ltac:(lra) eq_refl Hc
              (Hstep eq_refl eq_refl ltac:(lra) eq_refl eq_refl ltac:(lra)
                 eq_refl Hc ltac:(repeat constructor; lra)
                 two_law_system_lookup two_law_system_overflow))
    as (s1' & dmu_dt & rates & Hdw & Hstep').
  eexists _, s1', dmu_dt, rates. split; last exact Hstep'.
  rewrite <- Hdw.
  apply Hstep; try done; try lra.
  - repeat constructor; lra.
  - apply two_law_system_lookup.
  - apply two_law_system_overflow.
Defined.

(** X8.  The order of the state relations does not matter to the
    results.  With an integrator that treats the state coordinates
    alike (run on the reordered initial vector it asks for the
    reordered points and returns the reordered solution), solving the
    system with its laws reordered gives the same friction, slider
    velocity, time and displacement, and the columns of [states]
    reordered like the laws.  (The caller passes no [args] keyword,
    which [solve] passes itself.) *)
Theorem solve_reordering
  (odeint : list float64 → list R → gmap string R → integrator)
  (self : RateState) (kwargs : gmap string R)
  (system sys2 : ExternalSystem) (h : heap) (p : list nat)
  (vr m0 aa kk : R) (mt lv : list R) (wsol : list (list R)) :
  let laws := state_relations system in
  let n := length laws in
  let y0 := finite (m0 :: (steady_value vr <$> laws)) in
  kwargs !! "args" = None →
  p ≡ₚ seq 0 n →
  vref system = PyFloat vr → 0 < vr →
  mu0 system = PyFloat m0 →
  a system = PyFloat aa → aa ≠ 0 →
  k system = PyFloat kk →
  Forall configured laws →
  model_time system = Some mt → loadpoint_velocity system = Some lv →
  length mt = length lv →
  (∀ kw, equivariant p n (odeint y0 mt kw)
           (odeint (permute_states p y0) mt kw)) →
  run_integrator (_integrationStep self)
    (odeint y0 mt (kwargs ∪ default_kwargs))
    (set_state_relations
       (with_initial_states laws (steady_value vr <$> laws)) system)
  = (Ok (finite_matrix wsol), sys2) →
  Forall (λ row, length row = S n ∧ Forall (λ x, 0 < x) (drop 1 row)) wsol →
  ∃ (sys2' : ExternalSystem) (r r' : results),
    solve odeint self kwargs (system, h)
    = (Ok (self_results self), (sys2, <[self_results self := r]> h)) ∧
    solve odeint self kwargs (permuted_system p system, h)
    = (Ok (self_results self), (sys2', <[self_results self := r']> h)) ∧
    friction r' = friction r ∧
    slider_velocity r' = slider_velocity r ∧
    time r' = time r ∧
    displacement r' = displacement r ∧
    states r'
    = (λ sts : list (list float64), permute p <$> sts) <$> states r.
Proof.
  intros laws n y0 Hargs Hp Hvr Hvrpos Hm0 Ha Hane Hk Hlaws Hmt Hlv Hlen Heq
    Hrun Hwsol.
  destruct (solve_reordered_ok odeint self kwargs system sys2 h p
              vr m0 aa kk mt lv wsol) as [sys2' Hsolve']; try done.
  exists sys2', (solved vr m0 aa laws mt lv wsol),
    (solved vr m0 aa (permute p laws) mt lv (permute_states p <$> wsol)).
  split; first by apply (solve_ok odeint self kwargs system sys2 h
                           vr m0 aa mt lv wsol).
  split; first exact Hsolve'.
  unfold solved. simpl. repeat split.
  - do 2 f_equal. rewrite <- list_fmap_compose. apply fmap_ext_Forall.
    apply Forall_forall. intros row _. simpl.
    by rewrite permute_states_head.
  - do 3 f_equal. rewrite <- list_fmap_compose. apply fmap_ext_Forall.
    eapply Forall_impl; first done. intros row [Hrow _]. simpl.
    rewrite permute_states_head, permute_states_tail.
    unfold constitutive_velocity.
    rewrite total_contribution_permute; try done.
    rewrite length_drop, Hrow. fold n. lia.
  - f_equal. unfold finite_matrix. rewrite <- !list_fmap_compose.
    apply fmap_ext_Forall.
    apply Forall_forall. intros row _. simpl.
    rewrite permute_states_tail. unfold finite. apply permute_fmap.
Qed.

Lemma two_law_run (self : RateState) (kwargs : gmap string R) :
  let laws := state_relations two_law_system in
  ∃ wsol sys2,
    run_integrator (_integrationStep self)
      (euler (finite (0.6 :: (steady_value 1 <$> laws))) [0; 1] kwargs)
      (set_state_relations
         (with_initial_states laws (steady_value 1 <$> laws))
         two_law_system)
    = (Ok (finite_matrix wsol), sys2) ∧
    Forall (λ row, length row = 3%nat ∧ Forall (λ x, 0 < x) (drop 1 row))
      wsol.
Proof.
  intros laws. destruct two_law_system_configured as [Hc Hn].
  destruct (integration_step_steady self two_law_system 0 1 0.6 0.005
              1e-3 1) as (sys2 & Hstep & _); try done; try lra.
  { apply two_law_system_lookup. }
  exists [0.6 :: (steady_value 1 <$> laws);
          [0.6 + (1 - 0) * (1e-3 * (1 - 1)); 10 / 1 + (1 - 0) * 0;
           5 / 1 + (1 - 0) * 0]], sys2.
  split.
  - simpl. erewrite bind_ok; last exact Hstep.
    simpl. done.
  - unfold steady_value. simpl. repeat constructor; simpl; lra.
Qed.

Lemma solve_reordering_example :
  ∃ (sys2 sys2' : ExternalSystem) (r r' : results),
    solve euler sample_simulator ∅ (two_law_system, sample_heap)
    = (Ok (self_results sample_simulator),
       (sys2, <[self_results sample_simulator := r]> sample_heap)) ∧
    solve euler sample_simulator ∅
      (permuted_system [1%nat; 0%nat] two_law_system, sample_heap)
    = (Ok (self_results sample_simulator),
       (sys2', <[self_results sample_simulator := r']> sample_heap)) ∧
    friction r' = friction r ∧
    slider_velocity r' = slider_velocity r ∧
    time r' = time r ∧
    displacement r' = displacement r ∧
    states r'
    = (λ sts : list (list float64), permute [1%nat; 0%nat] <$> sts)
        <$> states r.
Proof.
  destruct two_law_system_configured as [Hc _].
  destruct (two_law_run sample_simulator (∅ ∪ default_kwargs))
    as (wsol & sys2 & Hrun & Hwsol).
  exists sys2.
  apply (solve_reordering euler sample_simulator ∅ two_law_system sys2
           sample_heap [1%nat; 0%nat] 1 0.6 0.005 1e-3 [0; 1] [1; 1] wsol);
    try done; try lra.
  - apply swap_is_permutation.
  - intros kw. apply euler_equivariant; [apply swap_is_permutation | done].
Defined.



(** ** Errors that the readiness check does not catch *)



(** ** The range of floats *)





Lemma set_state_relations_id (system : ExternalSystem) :
  set_state_relations (state_relations system) system = system.
Proof. by destruct system. Qed.

(** X10.  A bad reference velocity stops [solve] while it builds the
    initial conditions, before the integrator is called: when the first
    law has its [Dc] set, [vref = 0] raises [ZeroDivisionError] and
    [vref = None] raises [TypeError]; the system and the results object
    are left as they were. *)
Theorem solve_bad_reference_velocity
  (odeint : list float64 → list R → gmap string R → integrator)
  (self : RateState) (kwargs : gmap string R)
  (system : ExternalSystem) (h : heap) (law : StateRelation)
  (rest : list StateRelation) (d : R) :
  state_relations system = law :: rest → Dc law = PyFloat d →
  (vref system = PyFloat 0 →
   solve odeint self kwargs (system, h)
   = (Raise ZeroDivisionError, (system, h))) ∧
  (vref system = PyNone →
   solve odeint self kwargs (system, h) = (Raise TypeError, (system, h))).
Proof.
  intros Hlaws Hd.
  split; intros Hvr; rewrite solve_cases; unfold initial_conditions;
    rewrite Hlaws; cbn [initial_states];
    unfold _set_steady_state, steady_state;
    rewrite Hd, Hvr; destruct (cls law); cbn [py_mul arith mbind result_bind];
    rewrite ?py_div_zero, ?py_div_none; cbn [fmap result_fmap];
    by rewrite <- Hlaws, set_state_relations_id.
Qed.

Lemma solve_bad_reference_velocity_example :
  solve euler sample_simulator ∅ (zero_vref_system, sample_heap)
  = (Raise ZeroDivisionError, (zero_vref_system, sample_heap)).
Proof.
  apply (solve_bad_reference_velocity euler sample_simulator ∅
           zero_vref_system sample_heap (sample_law DieterichState) [] 10);
    done.
Defined.

(** ** [solve] as a function of the parameters *)

(** The statements after the call of [odeint], case by case. *)
Lemma postprocess_cases (self : RateState) (wsol : list (list float64))
  (mt : list R) (system : ExternalSystem) (h : heap) :
  let l := self_results self in
  postprocess self wsol mt (system, h)
  = match column 0 wsol with
    | Raise e => (Raise e, (system, h))
    | Ok fr =>
        let sts := columns_from 1 wsol in
        let r1 := set_time mt
                    (set_states sts
                       (set_friction fr (default results_class (h !! l)))) in
        match velocity_contribution_loop (Scalar 0) 0
                (state_relations system) system sts with
        | Raise e => (Raise e, (system, <[l := r1]> h))
        | Ok vc =>
            match slider_velocity_of system fr vc with
            | Raise e => (Raise e, (system, <[l := r1]> h))
            | Ok sv =>
                match displacement_of system with
                | Raise e =>
                    (Raise e, (system, <[l := set_slider_velocity sv r1]> h))
                | Ok disp =>
                    (Ok l,
                     (system,
                      <[l := set_displacement disp
                               (set_slider_velocity sv r1)]> h))
                end
            end
        end
    end.
Proof.
  intros l. unfold postprocess. fold l.
  unfold mbind at 1, M_bind at 1, lift at 1.
  destruct (column 0 wsol) as [fr|e]; last done.
  erewrite bind_ok; last by unfold setattr.
  cbn [fst snd].
  erewrite bind_ok; last by apply setattr_twice.
  erewrite bind_ok; last by apply setattr_twice.
  erewrite bind_ok; last by (apply on_system_run; unfold get).
  cbn [fst snd].
  erewrite bind_ok; last first.
  { unfold getobj. cbn [fst snd]. by rewrite lookup_insert_eq. }
  erewrite bind_ok; last by unfold lift.
  unfold mbind at 1, M_bind at 1, lift at 1.
  destruct (velocity_contribution_loop _ _ _ _ _) as [vc|e]; last done.
  erewrite bind_ok; last by unfold lift.
  unfold mbind at 1, M_bind at 1, lift at 1. simpl.
  destruct (slider_velocity_of system fr vc) as [sv|e]; last done.
  erewrite bind_ok; last by apply setattr_twice.
  unfold mbind at 1, M_bind at 1, lift at 1.
  destruct (displacement_of system) as [disp|e]; last done.
  erewrite bind_ok; last by apply setattr_twice.
  done.
Qed.

Lemma same_law_sym (l l' : StateRelation) : same_law l l' → same_law l' l.
Proof. intros (? & ? & ?). repeat split; congruence. Qed.

Lemma same_laws_sym (laws laws' : list StateRelation) :
  Forall2 same_law laws laws' → Forall2 same_law laws' laws.
Proof.
  induction 1; constructor; [by apply same_law_sym | done].
Qed.

Lemma same_parameters_sym (s s' : ExternalSystem) :
  same_parameters s s' → same_parameters s' s.
Proof.
  intros (? & ? & ? & ? & ? & ? & ?). repeat split; try congruence.
  by apply same_laws_sym.
Qed.

Lemma run_integrator_same_result (self : RateState) (prog : integrator)
  (s s' : ExternalSystem) :
  same_parameters s s' →
  (run_integrator (_integrationStep self) prog s).1
  = (run_integrator (_integrationStep self) prog s').1.
Proof.
  revert s s'. induction prog as [wsol|e|w t next IH]; intros s s' Hsame;
    try done.
  simpl. unfold mbind, M_bind.
  destruct (integration_step_same_result self w t s s' Hsame) as [H1 H2].
  destruct (_integrationStep self w t s) as [r1 s1].
  destruct (_integrationStep self w t s') as [r2 s1'].
  simpl in H1, H2. subst r2. destruct r1 as [dw|e]; last done.
  rewrite <- (H2 dw eq_refl). apply IH, same_parameters_refl.
Qed.

Lemma steady_state_same (l l' : StateRelation) (s s' : ExternalSystem) :
  vref s = vref s' → same_law l l' → steady_state l s = steady_state l' s'.
Proof.
  intros Hvr (Hc & Hb & Hd). unfold steady_state. by rewrite Hc, Hd, Hvr.
Qed.

Lemma initial_states_same (s s' : ExternalSystem)
  (laws laws' : list StateRelation) :
  vref s = vref s' → Forall2 same_law laws laws' →
  (initial_states s laws).1 = (initial_states s' laws').1 ∧
  Forall2 same_law laws (initial_states s laws).2.
Proof.
  intros Hvr. induction 1 as [|l l' laws laws' Hl Hrest IH]; first done.
  simpl. unfold _set_steady_state.
  rewrite (steady_state_same l l' s s' Hvr Hl).
  destruct IH as [IH1 IH2].
  destruct (initial_states s laws) as [r1 rest1].
  destruct (initial_states s' laws') as [r2 rest2].
  simpl in IH1, IH2. subst r2.
  destruct (steady_state l' s') as [x|e]; simpl.
  - split; first done. constructor; [done | done].
  - split; first done. apply same_laws_refl.
Qed.

Lemma initial_conditions_same (s s' : ExternalSystem) :
  same_parameters s s' →
  (initial_conditions s).1 = (initial_conditions s').1 ∧
  same_parameters (initial_conditions s).2 (initial_conditions s').2.
Proof.
  intros Hsame.
  pose proof Hsame as (Hm0 & Ha & Hk & Hvr & Hmt & Hlv & Hlaws).
  unfold initial_conditions.
  destruct (initial_states_same s s' _ _ Hvr Hlaws) as [H1 H2].
  destruct (initial_states_same s' s _ _ (eq_sym Hvr) (same_laws_sym _ _ Hlaws))
    as [_ H3].
  destruct (initial_states s (state_relations s)) as [r1 l1].
  destruct (initial_states s' (state_relations s')) as [r2 l2].
  simpl in *. subst r2. split; first by rewrite Hm0.
  repeat split; try done. simpl.
  apply (same_laws_trans _ (state_relations s)); first by apply same_laws_sym.
  by apply (same_laws_trans _ (state_relations s')).
Qed.

Lemma velocity_contribution_loop_same (s s' : ExternalSystem)
  (laws laws' : list StateRelation) (sts : list (list float64)) :
  vref s = vref s' → Forall2 same_law laws laws' →
  ∀ (acc : ndarray) (i : nat),
    velocity_contribution_loop acc i laws s sts
    = velocity_contribution_loop acc i laws' s' sts.
Proof.
  intros Hvr. induction 1 as [|l l' laws laws' (Hc & Hb & Hd) Hrest IH];
    intros acc i; first done.
  simpl. rewrite Hvr, Hb, Hd.
  destruct (column i sts) as [col|]; simpl; last done.
  destruct (nd_of_value (vref s')) as [x1|]; simpl; last done.
  destruct (nd_op fmul x1 (Array col)) as [x2|]; simpl; last done.
  destruct (nd_of_value (Dc l')) as [x3|]; simpl; last done.
  destruct (np_div x2 x3) as [x4|]; simpl; last done.
  destruct (nd_of_value (b l')) as [x6|]; simpl; last done.
  destruct (nd_op fmul x6 (np_log x4)) as [x7|]; simpl; last done.
  destruct (nd_op fadd acc x7) as [x8|]; simpl; last done.
  apply IH.
Qed.

Lemma postprocess_same (self : RateState) (wsol : list (list float64))
  (mt : list R) (s s' : ExternalSystem) (h : heap) :
  same_parameters s s' →
  (postprocess self wsol mt (s, h)).1 = (postprocess self wsol mt (s', h)).1 ∧
  (postprocess self wsol mt (s, h)).2.2
  = (postprocess self wsol mt (s', h)).2.2.
Proof.
  intros (Hm0 & Ha & Hk & Hvr & Hmt & Hlv & Hlaws).
  rewrite !postprocess_cases.
  destruct (column 0 wsol) as [fr|e]; last done. simpl.
  rewrite (velocity_contribution_loop_same s s' _ _ _ Hvr Hlaws).
  destruct (velocity_contribution_loop _ _ _ s' _) as [vc|e]; last done.
  unfold slider_velocity_of, displacement_of.
  rewrite Hm0, Ha, Hvr, Hmt, Hlv.
  fold (slider_velocity_of s' fr vc). fold (displacement_of s').
  destruct (slider_velocity_of s' fr vc) as [sv|e]; last done.
  destruct (displacement_of s') as [disp|e]; done.
Qed.

Lemma solve_same
  (odeint : list float64 → list R → gmap string R → integrator)
  (self : RateState) (kwargs : gmap string R)
  (s s' : ExternalSystem) (h : heap) :
  same_parameters s s' →
  (solve odeint self kwargs (s, h)).1 = (solve odeint self kwargs (s', h)).1 ∧
  (solve odeint self kwargs (s, h)).2.2
  = (solve odeint self kwargs (s', h)).2.2.
Proof.
  intros Hsame. rewrite !solve_cases.
  destruct (initial_conditions_same s s' Hsame) as [H1 H2].
  pose proof (initial_conditions_model_time s) as Hmt1.
  pose proof (initial_conditions_model_time s') as Hmt2.
  pose proof Hsame as (_ & _ & _ & _ & Hmt & _).
  destruct (initial_conditions s) as [r1 sys1].
  destruct (initial_conditions s') as [r2 sys1'].
  simpl in H1, H2, Hmt1, Hmt2. subst r2.
  destruct r1 as [w0|e]; last done.
  rewrite Hmt1, Hmt2, <- Hmt.
  destruct (model_time s) as [mt|]; last done.
  destruct (kwargs !! "args") as [?|]; first done.
  destruct (mapM as_float w0) as [y0|e]; last done.
  set (prog := odeint y0 mt (kwargs ∪ default_kwargs)).
  pose proof (run_integrator_same_result self prog sys1 sys1' H2) as H3.
  pose proof (run_integrator_same_parameters self prog sys1) as H4.
  pose proof (run_integrator_same_parameters self prog sys1') as H5.
  destruct (run_integrator (_integrationStep self) prog sys1) as [q1 sys2].
  destruct (run_integrator (_integrationStep self) prog sys1') as [q2 sys2'].
  simpl in H3, H4, H5. subst q2.
  destruct q1 as [wsol|e]; last done.
  apply postprocess_same.
  apply (same_parameters_trans _ sys1); first by apply same_parameters_sym.
  apply (same_parameters_trans _ sys1'); done.
Qed.

(** X11.  [solve] depends on the system only through its parameters.  Two
    systems that differ at most in the scratch attributes ([mu], [v] and
    the [state] of their laws), solved by the same simulator with the
    same integrator, keyword arguments and heap, give the same outcome,
    the same result or the same exception, and leave the same results
    objects behind: what an earlier step or run left in the scratch
    attributes is overwritten before it is read. *)
Theorem solve_ignores_scratch
  (odeint : list float64 → list R → gmap string R → integrator)
  (self : RateState) (kwargs : gmap string R)
  (s s' : ExternalSystem) (h : heap) :
  same_parameters s s' →
  (solve odeint self kwargs (s, h)).1 = (solve odeint self kwargs (s', h)).1 ∧
  (solve odeint self kwargs (s, h)).2.2
  = (solve odeint self kwargs (s', h)).2.2.
Proof. apply solve_same. Qed.

(** X11, at a concrete input: the sample system and the same system
    after its scratch attributes were overwritten. *)
Lemma solve_ignores_scratch_example :
  same_parameters steady_system (set_mu (NpFloat 7) (set_v (PyFloat 3) steady_system)) ∧
  (solve euler sample_simulator ∅ (steady_system, sample_heap)).1
  = (solve euler sample_simulator ∅
       (set_mu (NpFloat 7) (set_v (PyFloat 3) steady_system), sample_heap)).1.
Proof.
  assert (same_parameters steady_system
            (set_mu (NpFloat 7) (set_v (PyFloat 3) steady_system))) as H.
  { repeat split. apply same_laws_refl. }
  split; first done.
  exact (proj1 (solve_ignores_scratch euler sample_simulator ∅
                  steady_system _ sample_heap H)).
Defined.

Lemma solve_heap_frame
  (odeint : list float64 → list R → gmap string R → integrator)
  (self : RateState) (kwargs : gmap string R)
  (system : ExternalSystem) (h : heap) (l' : loc) :
  l' ≠ self_results self →
  (solve odeint self kwargs (system, h)).2.2 !! l' = h !! l'.
Proof.
  intros Hne. rewrite solve_cases.
  destruct (initial_conditions system) as [[w0|e] sys1]; last done.
  destruct (model_time sys1) as [mt|]; last done.
  destruct (kwargs !! "args") as [?|]; first done.
  destruct (mapM as_float w0) as [y0|e]; last done.
  destruct (run_integrator _ _ sys1) as [[wsol|e] sys2]; last done.
  rewrite postprocess_cases.
  destruct (column 0 wsol) as [fr|e]; first last; first done.
  cbv zeta.
  destruct (velocity_contribution_loop _ _ _ _ _) as [vc|e];
    last by (simpl; rewrite lookup_insert_ne).
  destruct (slider_velocity_of _ _ _) as [sv|e];
    last by (simpl; rewrite lookup_insert_ne).
  destruct (displacement_of _) as [disp|e];
    by (simpl; rewrite lookup_insert_ne).
Qed.

(** ** What a run leaves behind *)

Lemma initial_conditions_same_parameters (s : ExternalSystem) :
  same_parameters s (initial_conditions s).2.
Proof.
  unfold initial_conditions.
  destruct (initial_states_same s s (state_relations s) (state_relations s)
              eq_refl (same_laws_refl _)) as [_ H].
  destruct (initial_states s (state_relations s)) as [r laws].
  by repeat split.
Qed.

Lemma postprocess_system (self : RateState) (wsol : list (list float64))
  (mt : list R) (s : ExternalSystem) (h : heap) :
  (postprocess self wsol mt (s, h)).2.1 = s.
Proof.
  rewrite postprocess_cases.
  destruct (column 0 wsol) as [fr|e]; last done. cbv zeta.
  destruct (velocity_contribution_loop _ _ _ _ _) as [vc|e]; last done.
  destruct (slider_velocity_of _ _ _) as [sv|e]; last done.
  by destruct (displacement_of _) as [disp|e].
Qed.

Lemma solve_same_parameters
  (odeint : list float64 → list R → gmap string R → integrator)
  (self : RateState) (kwargs : gmap string R)
  (s : ExternalSystem) (h : heap) :
  same_parameters s (solve odeint self kwargs (s, h)).2.1.
Proof.
  rewrite solve_cases.
  pose proof (initial_conditions_same_parameters s) as H1.
  destruct (initial_conditions s) as [[w0|e] sys1]; last done.
  simpl in H1.
  destruct (model_time sys1) as [mt|]; last done.
  destruct (kwargs !! "args") as [?|]; first done.
  destruct (mapM as_float w0) as [y0|e]; last done.
  pose proof (run_integrator_same_parameters self
                (odeint y0 mt (kwargs ∪ default_kwargs)) sys1) as H2.
  destruct (run_integrator _ _ sys1) as [[wsol|e] sys2]; simpl in H2.
  - rewrite postprocess_system. by apply (same_parameters_trans _ sys1).
  - by apply (same_parameters_trans _ sys1).
Qed.

(** X12.  What [solve] writes to.  Of the results objects it writes to
    one only, the simulator's own: whatever the outcome, every other
    results object of the heap is left as it was.  The other object it
    writes to is the system, and there only the scratch attributes
    [mu], [v] and the [state] of the laws: the system left behind has
    the parameters, the grid, the loadpoint velocities and the laws
    (class, [b], [Dc]) of the system passed in. *)
Theorem solve_touches_only_own_results
  (odeint : list float64 → list R → gmap string R → integrator)
  (self : RateState) (kwargs : gmap string R)
  (system : ExternalSystem) (h : heap) (l' : loc) :
  l' ≠ self_results self →
  (solve odeint self kwargs (system, h)).2.2 !! l' = h !! l' ∧
  same_parameters system (solve odeint self kwargs (system, h)).2.1.
Proof.
  intros Hne. split.
  - by apply solve_heap_frame.
  - apply solve_same_parameters.
Qed.

(** X12, at a concrete input: a second results object, allocated after
    the simulator's own, is still what it was after the run. *)
Lemma solve_touches_only_own_results_example :
  2%positive ≠ self_results sample_simulator ∧
  (solve euler sample_simulator ∅
     (steady_system, <[2%positive := results_class]> sample_heap)).2.2
    !! 2%positive
  = Some results_class.
Proof.
  assert (2%positive ≠ self_results sample_simulator) as H by done.
  split; first done.
  rewrite (proj1 (solve_touches_only_own_results euler sample_simulator ∅
                    steady_system _ 2%positive H)).
  apply lookup_insert_eq.
Defined.

Lemma solve_success_form
  (odeint : list float64 → list R → gmap string R → integrator)
  (self : RateState) (kwargs : gmap string R)
  (s s2 : ExternalSystem) (h h2 : heap) (l : loc) :
  solve odeint self kwargs (s, h) = (Ok l, (s2, h2)) →
  ∃ r, l = self_results self ∧ h2 = <[l := r]> h ∧
       ∀ h', solve odeint self kwargs (s, h') = (Ok l, (s2, <[l := r]> h')).
Proof.
  intros Hrun.
  assert (∀ h', solve odeint self kwargs (s, h')
                = match initial_conditions s with
                  | (Raise e, sys1) => (Raise e, (sys1, h'))
                  | (Ok w0, sys1) =>
                      match model_time sys1 with
                      | None => (Raise AttributeError, (sys1, h'))
                      | Some mt =>
                          match kwargs !! "args" with
                          | Some _ => (Raise TypeError, (sys1, h'))
                          | None =>
                              match mapM as_float w0 with
                              | Raise e => (Raise e, (sys1, h'))
                              | Ok y0 =>
                                  match run_integrator (_integrationStep self)
                                          (odeint y0 mt
                                             (kwargs ∪ default_kwargs))
                                          sys1 with
                                  | (Raise e, sys2) => (Raise e, (sys2, h'))
                                  | (Ok wsol, sys2) =>
                                      postprocess self wsol mt (sys2, h')
                                  end
                              end
                          end
                      end
                  end) as Hcases by (intros h'; apply solve_cases).
  rewrite Hcases in Hrun.
  destruct (initial_conditions s) as [[w0|e] sys1]; last done.
  destruct (model_time sys1) as [mt|]; last done.
  destruct (kwargs !! "args") as [?|]; first done.
  destruct (mapM as_float w0) as [y0|e]; last done.
  destruct (run_integrator _ _ sys1) as [[wsol|e] sys2]; last done.
  assert (∀ h', solve odeint self kwargs (s, h')
                = postprocess self wsol mt (sys2, h')) as Hpost
    by (intros h'; apply Hcases).
  clear Hcases. rewrite postprocess_cases in Hrun.
  destruct (column 0 wsol) as [fr|e] eqn:Hfr; last done. cbv zeta in Hrun.
  destruct (velocity_contribution_loop _ _ _ _ _) as [vc|e] eqn:Hvc;
    last done.
  destruct (slider_velocity_of _ _ _) as [sv|e] eqn:Hsv; last done.
  destruct (displacement_of _) as [disp|e] eqn:Hdisp; last done.
  simplify_eq. eexists. split; first done. split; first done.
  intros h'. rewrite Hpost, postprocess_cases, Hfr. cbv zeta.
  by rewrite Hvc, Hsv, Hdisp.
Qed.

Lemma solve_outcome_heap
  (odeint : list float64 → list R → gmap string R → integrator)
  (self : RateState) (kwargs : gmap string R)
  (s : ExternalSystem) (h h' : heap) :
  (solve odeint self kwargs (s, h)).1 = (solve odeint self kwargs (s, h')).1 ∧
  (solve odeint self kwargs (s, h)).2.1
  = (solve odeint self kwargs (s, h')).2.1.
Proof.
  rewrite !solve_cases.
  destruct (initial_conditions s) as [[w0|e] sys1]; last done.
  destruct (model_time sys1) as [mt|]; last done.
  destruct (kwargs !! "args") as [?|]; first done.
  destruct (mapM as_float w0) as [y0|e]; last done.
  destruct (run_integrator _ _ sys1) as [[wsol|e] sys2]; last done.
  rewrite !postprocess_system. split; last done.
  rewrite !postprocess_cases.
  destruct (column 0 wsol) as [fr|e]; last done. cbv zeta.
  destruct (velocity_contribution_loop _ _ _ _ _) as [vc|e]; last done.
  destruct (slider_velocity_of _ _ _) as [sv|e]; last done.
  by destruct (displacement_of _) as [disp|e].
Qed.

(** X13.  A successful run overwrites every attribute of the results
    object.  The outcome of [solve] and the system it leaves do not
    depend on the heap, and when [solve] returns, the results object is
    the same whatever it held before: nothing of an earlier run on the
    shared object survives. *)
Theorem solve_overwrites_results
  (odeint : list float64 → list R → gmap string R → integrator)
  (self : RateState) (kwargs : gmap string R)
  (s : ExternalSystem) (h h' : heap) :
  (solve odeint self kwargs (s, h)).1 = (solve odeint self kwargs (s, h')).1 ∧
  (solve odeint self kwargs (s, h)).2.1
  = (solve odeint self kwargs (s, h')).2.1 ∧
  ∀ l, (solve odeint self kwargs (s, h)).1 = Ok l →
       (solve odeint self kwargs (s, h)).2.2 !! l
       = (solve odeint self kwargs (s, h')).2.2 !! l.
Proof.
  destruct (solve_outcome_heap odeint self kwargs s h h') as [H1 H2].
  split; first done. split; first done.
  intros l Hl.
  destruct (solve odeint self kwargs (s, h)) as [r [s2 h2]] eqn:Hrun.
  simpl in Hl. subst r.
  destruct (solve_success_form odeint self kwargs s s2 h h2 l Hrun)
    as (r & _ & -> & Hrun').
  rewrite (Hrun' h'). simpl. by rewrite !lookup_insert_eq.
Qed.

(** X14.  [results.displacement] is the last attribute that [solve]
    assigns: whenever [solve] raises, the displacement of the
    simulator's results object is what it was before the call, also
    when friction, states, time and slider velocity are already those
    of the failed run. *)
Theorem failed_solve_keeps_displacement
  (odeint : list float64 → list R → gmap string R → integrator)
  (self : RateState) (kwargs : gmap string R)
  (s : ExternalSystem) (h : heap) (e : exn) :
  (solve odeint self kwargs (s, h)).1 = Raise e →
  displacement
    (default results_class
       ((solve odeint self kwargs (s, h)).2.2 !! self_results self))
  = displacement (default results_class (h !! self_results self)).
Proof.
  rewrite solve_cases.
  destruct (initial_conditions s) as [[w0|e0] sys1]; last done.
  destruct (model_time sys1) as [mt|]; last done.
  destruct (kwargs !! "args") as [?|]; first done.
  destruct (mapM as_float w0) as [y0|e0]; last done.
  destruct (run_integrator _ _ sys1) as [[wsol|e0] sys2]; last done.
  rewrite postprocess_cases.
  destruct (column 0 wsol) as [fr|e0]; last done. cbv zeta.
  destruct (velocity_contribution_loop _ _ _ _ _) as [vc|e0];
    last by (simpl; rewrite lookup_insert_eq).
  destruct (slider_velocity_of _ _ _) as [sv|e0];
    last by (simpl; rewrite lookup_insert_eq).
  destruct (displacement_of _) as [disp|e0]; first done.
  simpl. by rewrite lookup_insert_eq.
Qed.

(** X14, at a concrete input: on a grid of one sample time with three
    loadpoint velocities the integration succeeds and the displacement
    cannot be computed; [solve] raises [ValueError], the friction of
    the results object is that of the run and its displacement is
    still unset. *)
Lemma failed_solve_keeps_displacement_example :
  (solve euler sample_simulator ∅ (single_point_system, sample_heap)).1
  = Raise ValueError ∧
  friction
    (default results_class
       ((solve euler sample_simulator ∅
           (single_point_system, sample_heap)).2.2
          !! self_results sample_simulator))
  = Some (finite [0.6]) ∧
  displacement
    (default results_class
       ((solve euler sample_simulator ∅
           (single_point_system, sample_heap)).2.2
          !! self_results sample_simulator))
  = None.
Proof.
  assert (solve euler sample_simulator ∅ (single_point_system, sample_heap)
          = postprocess sample_simulator (finite_matrix [[0.6]]) [0]
              (set_state_relations [] single_point_system, sample_heap))
    as Hrun.
  { by rewrite solve_cases. }
  assert ((solve euler sample_simulator ∅
             (single_point_system, sample_heap)).1 = Raise ValueError)
    as Hraise.
  { by rewrite Hrun, postprocess_cases. }
  split; first done. split.
  - rewrite Hrun, postprocess_cases. simpl.
    by rewrite lookup_insert_eq.
  - rewrite (failed_solve_keeps_displacement euler sample_simulator ∅
               single_point_system sample_heap ValueError Hraise).
    done.
Defined.

(** X15.  A system that has no [model_time] attribute is not caught by
    the readiness check: [solve] still computes the initial conditions
    on it, then raises, with [AttributeError] when the initial
    conditions could be computed and with their exception otherwise,
    and in either case before anything is written to a results
    object. *)
Theorem solve_without_grid
  (odeint : list float64 → list R → gmap string R → integrator)
  (self : RateState) (kwargs : gmap string R)
  (s : ExternalSystem) (h : heap) :
  model_time s = None →
  solve odeint self kwargs (s, h)
  = (match (initial_conditions s).1 with
     | Ok _ => Raise AttributeError
     | Raise e => Raise e
     end, ((initial_conditions s).2, h)).
Proof.
  intros Hmt. rewrite solve_cases.
  pose proof (initial_conditions_model_time s) as Hmt'.
  destruct (initial_conditions s) as [[w0|e] sys1]; last done.
  simpl in Hmt'. by rewrite Hmt', Hmt.
Qed.

Lemma solve_without_grid_example :
  (solve euler sample_simulator ∅ (gridless_system, sample_heap)).1
  = Raise AttributeError ∧
  (solve euler sample_simulator ∅ (gridless_system, sample_heap)).2.2
  = sample_heap.
Proof.
  rewrite (solve_without_grid euler sample_simulator ∅ gridless_system
             sample_heap eq_refl).
  split; last done. simpl.
  rewrite (initial_conditions_ok gridless_system 1 0.6); try done; try lra.
  repeat constructor. exists 0.01, 10. repeat split; lra.
Defined.

(** X16.  The keyword arguments that reach [odeint] are those of the
    caller, with [rtol] and [atol] set to [1e-12] where the caller gave
    none: a caller's own [rtol] or [atol] takes precedence over the
    default, and [solve] adds no other keyword to the caller's, so that
    two integrators that agree on such arguments give the same run.
    The one keyword that a caller cannot pass is [args], which [solve]
    passes itself: with it the call of [odeint] raises [TypeError],
    after the initial conditions were written and the grid was read,
    and the integrator is not run. *)
Theorem solve_passes_tolerances
  (odeint odeint' : list float64 → list R → gmap string R → integrator)
  (self : RateState) (kwargs : gmap string R) (s : ExternalSystem)
  (h : heap) :
  (kwargs !! "args" = None →
   (∀ (y0 : list float64) (mt : list R) (kw : gmap string R),
      kw !! "rtol" = Some (default 1e-12 (kwargs !! "rtol")) →
      kw !! "atol" = Some (default 1e-12 (kwargs !! "atol")) →
      (∀ key, key ≠ "rtol" → key ≠ "atol" → kw !! key = kwargs !! key) →
      odeint y0 mt kw = odeint' y0 mt kw) →
   solve odeint self kwargs (s, h) = solve odeint' self kwargs (s, h)) ∧
  (is_Some (kwargs !! "args") →
   solve odeint self kwargs (s, h)
   = (match (initial_conditions s).1 with
      | Ok _ => match model_time s with
                | Some _ => Raise TypeError
                | None => Raise AttributeError
                end
      | Raise e => Raise e
      end, ((initial_conditions s).2, h))).
Proof.
  split.
  - intros Hargs Hagree. rewrite !solve_cases.
    destruct (initial_conditions s) as [[w0|e] sys1]; last done.
    destruct (model_time sys1) as [mt|]; last done.
    rewrite Hargs.
    destruct (mapM as_float w0) as [y0|e]; last done.
    rewrite (Hagree y0 mt (kwargs ∪ default_kwargs)); first done.
    + rewrite default_kwargs_lookup. by rewrite decide_True by (by left).
    + rewrite default_kwargs_lookup. by rewrite decide_True by (by right).
    + intros key Hr Ha. rewrite default_kwargs_lookup.
      by rewrite decide_False by (by intros [?|?]).
  - intros [x Hargs]. rewrite solve_cases.
    pose proof (initial_conditions_model_time s) as Hmt.
    destruct (initial_conditions s) as [[w0|e] sys1]; last done.
    simpl in Hmt. simpl. rewrite Hmt, Hargs.
    by destruct (model_time s).
Qed.

(** X16, at a concrete input: without keyword arguments, an integrator
    that refuses every relative tolerance other than [1e-12] runs as
    [euler] does; with [args] among the keyword arguments, [solve]
    raises [TypeError]. *)
Lemma solve_passes_tolerances_example :
  solve euler sample_simulator ∅ (steady_system, sample_heap)
  = solve strict_euler sample_simulator ∅ (steady_system, sample_heap) ∧
  (solve euler sample_simulator {[ "args" := 0 ]}
     (steady_system, sample_heap)).1
  = Raise TypeError.
Proof.
  split.
  - apply (solve_passes_tolerances euler strict_euler sample_simulator ∅);
      first done.
    intros y0 mt kw Hr _ _. unfold strict_euler.
    rewrite lookup_empty in Hr. simpl in Hr. by rewrite decide_True.
  - rewrite (proj2 (solve_passes_tolerances euler euler sample_simulator
                      {[ "args" := 0 ]} steady_system sample_heap));
      last by (eexists; apply lookup_singleton_eq).
    simpl.
    by rewrite (initial_conditions_ok steady_system 1 0.6 eq_refl
                  ltac:(lra) eq_refl
                  ltac:(repeat constructor; exists 0.01, 10;
                        repeat split; lra)).
Defined.

(** ** The vector handed to the integration step *)

Lemma assign_states_short (w : list float64) (laws : list StateRelation)
  (i : nat) :
  (i + 1 ≤ length w)%nat → (length w ≤ i + length laws)%nat →
  (assign_states w i laws).1 = Raise IndexError.
Proof.
  revert i. induction laws as [|law laws IH]; intros i Hlo Hhi; simpl in *;
    first lia.
  unfold item. destruct (w !! (i + 1)%nat) as [x|] eqn:Hx; last done.
  apply lookup_lt_Some in Hx.
  specialize (IH (S i)).
  destruct (assign_states w (S i) laws) as [r rest]. simpl in *.
  apply IH; lia.
Qed.

Lemma assign_states_app (w extra : list float64) (laws : list StateRelation)
  (i : nat) :
  (i + length laws < length w)%nat →
  assign_states (w ++ extra) i laws = assign_states w i laws.
Proof.
  revert i. induction laws as [|law laws IH]; intros i Hlen; simpl in *;
    first done.
  unfold item. rewrite lookup_app_l by lia.
  destruct (w !! (i + 1)%nat) as [x|]; last done.
  rewrite IH by lia. done.
Qed.

(** X17.  A solver vector that has fewer components than one friction
    and one state per law is rejected by the indexing [w[0]] or
    [w[i+1]]: the step raises [IndexError], whatever the system's
    parameters are, and computes no velocity. *)
Theorem integration_step_short_vector (self : RateState)
  (w : list float64) (t : float64) (system : ExternalSystem) :
  (length w ≤ length (state_relations system))%nat →
  (_integrationStep self w t system).1 = Raise IndexError ∧
  v (_integrationStep self w t system).2 = v system.
Proof.
  intros Hlen. unfold _integrationStep, mbind, M_bind, lift, modify, get.
  destruct w as [|m w]; first done.
  simpl item. cbn [fst snd]. simpl state_relations.
  pose proof (assign_states_short (m :: w) (state_relations system) 0) as H.
  destruct (assign_states (m :: w) 0 (state_relations system)) as [r laws].
  simpl in H, Hlen. rewrite H by lia. done.
Qed.

Lemma integration_step_short_vector_example :
  (_integrationStep sample_simulator (finite [0.6]) 0 steady_system).1
  = Raise IndexError.
Proof.
  assert (length (finite [0.6%R]) ≤ length (state_relations steady_system))%nat
    as H by (simpl; lia).
  exact (proj1 (integration_step_short_vector sample_simulator
                  (finite [0.6]) 0 steady_system H)).
Defined.

(** X18.  The step reads the friction and one state per law and nothing
    else of its vector: components beyond those change neither the
    result nor the system left behind. *)
Theorem integration_step_ignores_extra_components (self : RateState)
  (w extra : list float64) (t : float64) (system : ExternalSystem) :
  length w = S (length (state_relations system)) →
  _integrationStep self (w ++ extra) t system
  = _integrationStep self w t system.
Proof.
  intros Hlen. unfold _integrationStep, mbind, M_bind, lift, modify, get.
  destruct w as [|m w]; first done.
  simpl item. cbn [fst snd]. simpl state_relations.
  change (m :: w ++ extra) with ((m :: w) ++ extra).
  rewrite assign_states_app by (simpl in *; lia). done.
Qed.

Lemma integration_step_ignores_extra_components_example :
  _integrationStep sample_simulator (finite [0.6; 10] ++ finite [4; 2]) 0
    steady_system
  = _integrationStep sample_simulator (finite [0.6; 10]) 0 steady_system.
Proof.
  apply integration_step_ignores_extra_components. done.
Defined.

(** ** Simulators and repeated runs *)

(** X19.  [RateState()] makes a results object of its own: two
    simulators made one after the other hold different objects, and a
    run of the second one, whatever its outcome, leaves the results
    object of the first as [__init__] made it. *)
Theorem simulators_have_their_own_results
  (odeint : list float64 → list R → gmap string R → integrator)
  (kwargs : gmap string R) (system : ExternalSystem) (h : heap) :
  self_results (RateState_init h).1
  ≠ self_results (RateState_init (RateState_init h).2).1 ∧
  (solve odeint (RateState_init (RateState_init h).2).1 kwargs
     (system, (RateState_init (RateState_init h).2).2)).2.2
    !! self_results (RateState_init h).1
  = Some results_class.
Proof.
  set (l1 := self_results (RateState_init h).1).
  set (h1 := (RateState_init h).2).
  assert (l1 ≠ self_results (RateState_init h1).1) as Hne.
  { simpl. intros Heq.
    apply (is_fresh (dom h1)). rewrite <- Heq.
    apply elem_of_dom. exists results_class. apply lookup_insert_eq. }
  split; first done.
  rewrite solve_heap_frame by done. simpl.
  rewrite lookup_insert_ne by (intros Heq; by apply Hne).
  apply lookup_insert_eq.
Qed.

(** X20.  Solving again reproduces the run.  After [solve] has
    returned, a second call on the system as the first call left it,
    with its states, friction and velocity overwritten, returns the same
    results object and leaves in it exactly what the first call wrote. *)
Theorem solve_twice
  (odeint : list float64 → list R → gmap string R → integrator)
  (self : RateState) (kwargs : gmap string R)
  (s s2 : ExternalSystem) (h h2 : heap) (l : loc) :
  solve odeint self kwargs (s, h) = (Ok l, (s2, h2)) →
  (solve odeint self kwargs (s2, h2)).1 = Ok l ∧
  (solve odeint self kwargs (s2, h2)).2.2 = h2.
Proof.
  intros Hrun.
  pose proof (solve_same_parameters odeint self kwargs s h) as Hsame.
  rewrite Hrun in Hsame. simpl in Hsame.
  destruct (solve_success_form odeint self kwargs s s2 h h2 l Hrun)
    as (r & _ & -> & Hrun').
  destruct (solve_same odeint self kwargs s s2 (<[l := r]> h) Hsame)
    as [H1 H2].
  rewrite <- H1, <- H2, Hrun'. simpl. split; first done.
  apply insert_insert_eq.
Qed.

Lemma solve_twice_example :
  ∃ (l : loc) (s2 : ExternalSystem) (h2 : heap),
    solve euler sample_simulator ∅ (steady_system, sample_heap)
    = (Ok l, (s2, h2)) ∧
    (solve euler sample_simulator ∅ (s2, h2)).1 = Ok l ∧
    (solve euler sample_simulator ∅ (s2, h2)).2.2 = h2.
Proof.
  destruct (solve_steady sample_simulator 0.6 sample_heap) as [s2 Hrun].
  eexists _, s2, _. split; first exact Hrun.
  exact (solve_twice euler sample_simulator ∅ steady_system s2 sample_heap
           _ _ Hrun).
Defined.

(** X21.  [solve] changes no parameter of the system it is given.
    Whatever the outcome, the system left behind has the reference
    friction, [a], [k], reference velocity, time grid and loadpoint
    velocities of the system passed in, and the same laws with the same
    [b] and [Dc]: only [mu], [v] and the states of the laws are
    written. *)
Theorem solve_keeps_parameters
  (odeint : list float64 → list R → gmap string R → integrator)
  (self : RateState) (kwargs : gmap string R)
  (s : ExternalSystem) (h : heap) :
  same_parameters s (solve odeint self kwargs (s, h)).2.1.
Proof. apply solve_same_parameters. Qed.
